(** * Q47 null-sparse decomposition: the numerical scripts, embedded and verified

    The repository consists of three Python scripts:

    - [count_effective_moduli.py]: a sieve of Eratosthenes and a second sieve
      that counts the integers all of whose prime factors are 1 modulo 47;
    - [scripts/verify_local_roots.py]: the brute-force count of the roots of
      [n^47 - (n-1)^47] modulo a prime, and its closed form;
    - [scripts/verify_double_sparsity.py]: two closed-form exponents, computed
      in double-precision floating point.

    Python integers are unbounded, so they are [Z].  A Python list used as an
    array is a [list] accessed with stdpp's lookup and insert; an access out
    of range raises [IndexError], which the embedding makes explicit with a
    small exception monad.  Python floats are IEEE 754 binary64 numbers, which
    are the kernel's primitive floats. *)

From Stdlib Require Import ZArith Lia Sorted String Floats Uint63.
From stdpp Require Import base tactics option list list_numbers sorting.

Local Open Scope Z_scope.

(** ** The fragment of the Python runtime the scripts use *)

Module Py.

(** The exceptions the built-in operations below can raise. *)
Inductive exn : Set :=
| IndexError
| ValueError
| ZeroDivisionError.

(** The outcome of running a piece of Python: a value, or an exception. *)
Inductive res (A : Type) : Type :=
| Ok (a : A)
| Raise (e : exn).

Arguments Ok {A} a.
Arguments Raise {A} e.

Definition bind {A B : Type} (m : res A) (k : A -> res B) : res B :=
  match m with
  | Ok a => k a
  | Raise e => Raise e
  end.

(** [for x in xs: s = body(s, x)], the loop state threaded through. *)
Fixpoint for_each {S A : Type} (xs : list A) (body : S -> A -> res S) (s : S)
  : res S :=
  match xs with
  | [] => Ok s
  | x :: xs' => bind (body s x) (for_each xs' body)
  end.

(** [[x for x in xs if cond(x)]]. *)
Fixpoint comprehension {A : Type} (xs : list A) (cond : A -> res bool)
  : res (list A) :=
  match xs with
  | [] => Ok []
  | x :: xs' =>
      bind (cond x) (fun b =>
      bind (comprehension xs' cond) (fun r =>
      Ok (if b then x :: r else r)))
  end.

(** [[v] * k]: a list of [k] copies, empty when [k <= 0]. *)
Definition list_mul {A : Type} (v : A) (k : Z) : list A :=
  replicate (Z.to_nat k) v.

(** The position a subscript denotes: negative subscripts count from the
    end, anything outside [-len, len) raises [IndexError]. *)
Definition norm_index {A : Type} (l : list A) (i : Z) : res nat :=
  let len := Z.of_nat (length l) in
  if (0 <=? i) && (i <? len) then Ok (Z.to_nat i)
  else if (- len <=? i) && (i <? 0) then Ok (Z.to_nat (i + len))
  else Raise IndexError.

(** [l[i]]. *)
Definition getitem {A : Type} (l : list A) (i : Z) : res A :=
  bind (norm_index l i) (fun k =>
  match l !! k with
  | Some x => Ok x
  | None => Raise IndexError
  end).

(** [l[i] = v]. *)
Definition setitem {A : Type} (l : list A) (i : Z) (v : A) : res (list A) :=
  bind (norm_index l i) (fun k => Ok (<[k := v]> l)).

(** [range(start, stop)]. *)
Definition range (start stop : Z) : list Z := seqZ start (stop - start).

(** [range(start, stop, step)]; a zero step raises [ValueError]. *)
Definition range_step (start stop step : Z) : res (list Z) :=
  if step =? 0 then Raise ValueError
  else
    let len :=
      if 0 <? step then (stop - start + step - 1) / step
      else (start - stop - step - 1) / (- step) in
    Ok ((fun k => start + k * step) <$> seqZ 0 len).

(** [a % b] for a divisor that is not a literal.  Python's remainder takes
    the sign of the divisor, as [Z.modulo] does. *)
Definition mod_ (a b : Z) : res Z :=
  if b =? 0 then Raise ZeroDivisionError else Ok (a mod b).

(** [pow(b, e, m)] for a non-negative exponent. *)
Definition pow3 (b : Z) (e : N) (m : Z) : res Z :=
  if m =? 0 then Raise ValueError else Ok (b ^ Z.of_N e mod m).

(** [sum(l)] on a list of booleans: [True] counts for one. *)
Definition sum_bool (l : list bool) : Z :=
  foldl (fun acc (b : bool) => acc + (if b then 1 else 0)) 0 l.

(** [int(n ** 0.5)].  The script computes the square root in floating
    point and truncates it.  For every [n] below [2^52], which includes
    every bound for which the flag array of [n + 1] entries can be
    allocated, the truncation is the integer square root. *)
Definition int_sqrt (n : Z) : Z := Z.sqrt n.

End Py.

Import Py.

Notation "'let!' x ':=' m 'in' k" := (Py.bind m (fun x => k))
  (at level 10, x name, m at level 100, k at level 200).

(** ** count_effective_moduli.py *)

Module count_effective_moduli.

Definition sieve_primes (n : Z) : res (list Z) :=
  let is_prime := list_mul true (n + 1) in
  let! is_prime := setitem is_prime 0 false in
  let! is_prime := setitem is_prime 1 false in
  let! is_prime :=
    for_each (range 2 (int_sqrt n + 1))
      (fun is_prime i =>
         let! b := getitem is_prime i in
         if b : bool then
           let! js := range_step (i * i) (n + 1) i in
           for_each js (fun is_prime j => setitem is_prime j false) is_prime
         else Ok is_prime)
      is_prime in
  comprehension (range 2 (n + 1)) (fun i => getitem is_prime i).

Definition count_effective_moduli (D : Z) : res Z :=
  let is_eff := list_mul true (D + 1) in
  let! is_eff := setitem is_eff 0 false in
  let! primes := sieve_primes D in
  let! is_eff :=
    for_each primes
      (fun is_eff p =>
         if negb ((p - 1) mod 47 =? 0) then
           let! ms := range_step p (D + 1) p in
           for_each ms (fun is_eff m => setitem is_eff m false) is_eff
         else Ok is_eff)
      is_eff in
  Ok (sum_bool is_eff).

End count_effective_moduli.

Import count_effective_moduli.

(** ** scripts/verify_local_roots.py *)

Module verify_local_roots.

(** The script carries its own copy of the sieve, the same text as in
    [count_effective_moduli.py]. *)
Definition sieve_primes (n : Z) : res (list Z) :=
  let is_prime := list_mul true (n + 1) in
  let! is_prime := setitem is_prime 0 false in
  let! is_prime := setitem is_prime 1 false in
  let! is_prime :=
    for_each (range 2 (int_sqrt n + 1))
      (fun is_prime i =>
         let! b := getitem is_prime i in
         if b : bool then
           let! js := range_step (i * i) (n + 1) i in
           for_each js (fun is_prime j => setitem is_prime j false) is_prime
         else Ok is_prime)
      is_prime in
  comprehension (range 2 (n + 1)) (fun i => getitem is_prime i).

(** The value [q] the loop body of [omega_brute] computes for residue [n]. *)
Definition Q_mod (n p : Z) : res Z :=
  let! a := pow3 n 47 p in
  let! m := mod_ (n - 1) p in
  let! b := pow3 m 47 p in
  mod_ (a - b) p.

Definition omega_brute (p : Z) : res Z :=
  for_each (range 0 p)
    (fun count n =>
       let! q := Q_mod n p in
       if q =? 0 then Ok (count + 1) else Ok count)
    0.

Definition omega_theory (p : Z) : Z :=
  if p =? 47 then 0
  else if (p - 1) mod 47 =? 0 then 46
  else 0.

Definition classify (p : Z) : string :=
  if p =? 47 then "ramified"%string
  else if (p - 1) mod 47 =? 0 then "splitting"%string
  else "inert"%string.

(** The loop of [verify_mod47] from residue list [ns] on: it returns
    [False] at the first residue whose value is not 1, and [True] when the
    list is exhausted.  Its expression is the one of [omega_brute] with the
    literal 47 as modulus.  The lines it prints are not modelled. *)
Fixpoint verify_mod47_from (ns : list Z) : res bool :=
  match ns with
  | [] => Ok true
  | n :: ns' =>
      let! q_mod := Q_mod n 47 in
      if negb (q_mod =? 1) then Ok false else verify_mod47_from ns'
  end.

Definition verify_mod47 : res bool := verify_mod47_from (range 0 47).

(** The bound [main] tests the primes up to. *)
Definition P_MAX : Z := 6299.

(** One entry of [results]: the tuple [(p, ptype, theory, brute, ok)]. *)
Definition row : Type := Z * string * Z * Z * bool.

Definition row_p (r : row) : Z := let '(p, _, _, _, _) := r in p.
Definition row_ptype (r : row) : string := let '(_, t, _, _, _) := r in t.
Definition row_theory (r : row) : Z := let '(_, _, th, _, _) := r in th.
Definition row_brute (r : row) : Z := let '(_, _, _, b, _) := r in b.
Definition row_ok (r : row) : bool := let '(_, _, _, _, ok) := r in ok.

(** The variables the loop of [main] updates, together with the table lines
    it has printed: each is a row and its last column, "FAIL" or "OK".  The
    layout of the lines is not modelled. *)
Record loop_state : Type := {
  all_ok : bool;
  results : list row;
  n_inert : Z;
  n_split : Z;
  n_ramif : Z;
  printed : list (row * string)
}.

(** The body of the loop [for p in primes] of [main]. *)
Definition loop_body (st : loop_state) (p : Z) : res loop_state :=
  let! brute := omega_brute p in
  let theory := omega_theory p in
  let ptype := classify p in
  let ok := brute =? theory in
  let '(ni, ns, nr) :=
    if (ptype =? "inert")%string then (n_inert st + 1, n_split st, n_ramif st)
    else if (ptype =? "splitting")%string
         then (n_inert st, n_split st + 1, n_ramif st)
         else (n_inert st, n_split st, n_ramif st + 1) in
  let r : row := (p, ptype, theory, brute, ok) in
  let results' := results st ++ [r] in
  if negb ok then
    Ok {| all_ok := false; results := results';
          n_inert := ni; n_split := ns; n_ramif := nr;
          printed := printed st ++ [(r, "FAIL"%string)] |}
  else if negb (ptype =? "inert")%string then
    Ok {| all_ok := all_ok st; results := results';
          n_inert := ni; n_split := ns; n_ramif := nr;
          printed := printed st ++ [(r, "OK"%string)] |}
  else
    Ok {| all_ok := all_ok st; results := results';
          n_inert := ni; n_split := ns; n_ramif := nr;
          printed := printed st |}.

(** What a run of [main] leaves: the loop variables, the status of the
    summary line, and the rows written to the CSV file. *)
Record report : Type := {
  final : loop_state;
  status : string;
  csv_rows : list row
}.

(** [main], with the bound as a parameter.  The result of [verify_mod47] is
    discarded.  Creating the directory and writing the file are not
    modelled; [csv_rows] are the rows the writer is given. *)
Definition main_with (p_max : Z) : res report :=
  let! _ := verify_mod47 in
  let! primes := sieve_primes p_max in
  let! st :=
    for_each primes loop_body
      {| all_ok := true; results := []; n_inert := 0; n_split := 0;
         n_ramif := 0; printed := [] |} in
  Ok {| final := st;
        status := if all_ok st then "ALL PASS"%string else "SOME FAILED"%string;
        csv_rows :=
          List.filter
            (fun r => negb (row_ptype r =? "inert")%string || (row_p r <=? 53))
            (results st) |}.

Definition main : res report := main_with P_MAX.

End verify_local_roots.

(** ** scripts/verify_double_sparsity.py *)

Module verify_double_sparsity.

Local Open Scope float_scope.

(** The integer literals are converted to floats by Python's arithmetic;
    46, 45, 92 and 23 are exact in binary64. *)
Definition global_exponent (B : float) : float := (46 * B - 45) / 92.

Definition restricted_exponent (Bp : float) : float := (23 * Bp - 45) / 46.

(** The two thresholds as [main] writes them: [45 / 46] and [45 / 23]. *)
Definition B_crit_global : float := 45 / 46.
Definition Bp_crit_restricted : float := 45 / 23.

(** The values [main] tabulates.  A decimal literal denotes the nearest
    binary64 number, in Python as here. *)
#[warnings="-inexact-float"]
Definition B_values : list float :=
  [0.5; 0.8; 0.9; 45 / 46; 0.98; 1.0; 1.5; 45 / 23].

(** The first column of a table line: the value printed with four decimals
    (the formatting is not modelled), or the name of a threshold. *)
Inductive B_label : Set :=
| Formatted (B : float)
| Named (s : string).

(** The tuple [(B_label, eg, sg, er, sr)] that the loop over [B_values]
    appends to [results]. *)
#[warnings="-inexact-float"]
Definition table_row (B : float) : B_label * float * string * float * string :=
  let eg := global_exponent B in
  let er := restricted_exponent B in
  let sg := if eg <? 0 then "θ=1/2"%string else "FAILS"%string in
  let sr := if er <? 0 then "θ=1/2"%string else "FAILS"%string in
  let B_label :=
    if abs (B - 45 / 46) <? 1e-6 then Named "45/46"
    else if abs (B - 45 / 23) <? 1e-6 then Named "45/23"
    else Formatted B in
  (B_label, eg, sg, er, sr).

Definition table : list (B_label * float * string * float * string) :=
  map table_row B_values.

(** The verdicts [main] prints for the standard value [B = B' = 1]: whether
    each exponent is positive. *)
Definition standard_value_fails : bool * bool :=
  let B_std := 1.0 in
  (0 <? global_exponent B_std, 0 <? restricted_exponent B_std).

End verify_double_sparsity.

(** ** Definitions used to state and prove the properties *)

(** The flag at subscript [k] is set. *)
Definition flag (l : list bool) (k : Z) : Prop := l !! Z.to_nat k = Some true.

#[global] Instance flag_dec (l : list bool) (k : Z) : Decision (flag l k) :=
  decide (l !! Z.to_nat k = Some true).

(** The state of the flag array of [sieve_primes n] once the outer loop has
    handled every [i <= t]: the flags still set are those of the [k >= 2]
    with no divisor [d] in [2, t] such that [d * d <= k]. *)
Definition sieve_inv (n t : Z) (l : list bool) : Prop :=
  length l = Z.to_nat (n + 1) /\
  forall k, 0 <= k <= n ->
    (flag l k <-> 2 <= k /\ forall d, 2 <= d <= t -> d * d <= k -> ~ (d | k)).

(** An effective modulus: every prime factor is congruent to 1 modulo 47. *)
Definition effective (q : Z) : Prop :=
  forall p, Z.prime p -> (p | q) -> p mod 47 = 1.

(** The state of the flag array of [count_effective_moduli D] once the
    primes of [seen] have been handled. *)
Definition eff_inv (D : Z) (seen : list Z) (l : list bool) : Prop :=
  length l = Z.to_nat (D + 1) /\
  forall k, 0 <= k <= D ->
    (flag l k <->
     1 <= k /\ forall p, p ∈ seen -> (p - 1) mod 47 <> 0 -> ~ (p | k)).

(** Residue [n] is a root of [n^47 - (n-1)^47] modulo [p], as the body of
    [omega_brute] tests it. *)
Definition is_root (p n : Z) : Prop :=
  (n ^ 47 mod p - ((n - 1) mod p) ^ 47 mod p) mod p = 0.

#[global] Instance is_root_dec (p n : Z) : Decision (is_root p n) :=
  decide ((n ^ 47 mod p - ((n - 1) mod p) ^ 47 mod p) mod p = 0).

(** The same count on 63-bit machine integers, with the power reduced at
    every step; it is what the exhaustive check over the primes up to
    [P_MAX] runs, and is proved to agree with [omega_brute] below. *)
Definition mulmod63 (a b m : int) : int := ((a * b) mod m)%uint63.

Fixpoint powmod63 (b : int) (e : positive) (m : int) : int :=
  match e with
  | xH => (b mod m)%uint63
  | xO e' => let r := powmod63 b e' m in mulmod63 r r m
  | xI e' => let r := powmod63 b e' m in mulmod63 (mulmod63 r r m) b m
  end.

(** [prev] is the power of the residue before [n]. *)
Fixpoint count_roots63 (fuel : nat) (n prev acc p : int) : int :=
  match fuel with
  | O => acc
  | S fuel' =>
      let cur := powmod63 n 47 p in
      count_roots63 fuel' (n + 1)%uint63 cur
        (if (cur =? prev)%uint63 then (acc + 1)%uint63 else acc) p
  end.

Definition omega63 (p : int) : int :=
  count_roots63 (Z.to_nat (Uint63.to_Z p)) 0%uint63
    (powmod63 (p - 1)%uint63 47 p) 0%uint63 p.

(** The equality [main] records as [ok], on the machine-integer count. *)
Definition check_prime63 (p : Z) : bool :=
  Uint63.to_Z (omega63 (Uint63.of_Z p)) =? verify_local_roots.omega_theory p.

(** The primes up to 100, as the end-to-end scenario of the sieve lists
    them. *)
Definition primes_up_to_100 : list Z :=
  [2; 3; 5; 7; 11; 13; 17; 19; 23; 29; 31; 37; 41; 43; 47; 53; 59; 61;
   67; 71; 73; 79; 83; 89; 97].

(** A row of [results] holds what [main] computed for its prime. *)
Definition row_consistent (r : verify_local_roots.row) : Prop :=
  verify_local_roots.row_ptype r
    = verify_local_roots.classify (verify_local_roots.row_p r) /\
  verify_local_roots.row_theory r
    = verify_local_roots.omega_theory (verify_local_roots.row_p r) /\
  verify_local_roots.omega_brute (verify_local_roots.row_p r)
    = Ok (verify_local_roots.row_brute r) /\
  verify_local_roots.row_ok r
    = (verify_local_roots.row_brute r =? verify_local_roots.row_theory r).

(** The table lines [main] prints for the rows [rows]: a line for every row
    that does not match and for every row that is not inert, ending in
    "FAIL" or "OK". *)
Definition printed_of (rows : list verify_local_roots.row)
  : list (verify_local_roots.row * string) :=
  map (fun r => (r, if verify_local_roots.row_ok r
                    then "OK"%string else "FAIL"%string))
    (List.filter
       (fun r => negb (verify_local_roots.row_ok r) ||
                 negb (verify_local_roots.row_ptype r =? "inert")%string)
       rows).

(** How many of [ps] are of class [c]. *)
Definition count_class (c : string) (ps : list Z) : Z :=
  Z.of_nat
    (length (List.filter
               (fun p => (verify_local_roots.classify p =? c)%string) ps)).

(** The state of the loop of [main] once the primes [seen] are handled. *)
Definition main_inv (seen : list Z) (st : verify_local_roots.loop_state)
  : Prop :=
  map verify_local_roots.row_p (verify_local_roots.results st) = seen /\
  Forall row_consistent (verify_local_roots.results st) /\
  verify_local_roots.n_inert st = count_class "inert" seen /\
  verify_local_roots.n_split st = count_class "splitting" seen /\
  verify_local_roots.n_ramif st = count_class "ramified" seen /\
  verify_local_roots.all_ok st
    = forallb verify_local_roots.row_ok (verify_local_roots.results st) /\
  verify_local_roots.printed st = printed_of (verify_local_roots.results st).

(** ** Executions on small inputs *)

Example sieve_primes_10 : sieve_primes 10 = Ok [2; 3; 5; 7].
Proof. vm_compute. reflexivity. Qed.

Example sieve_primes_1 : sieve_primes 1 = Ok [].
Proof. vm_compute. reflexivity. Qed.

Example sieve_primes_0 : sieve_primes 0 = Raise IndexError.
Proof. vm_compute. reflexivity. Qed.

Example count_effective_moduli_100 : count_effective_moduli 100 = Ok 1.
Proof. vm_compute. reflexivity. Qed.

Example count_effective_moduli_1000 : count_effective_moduli 1000 = Ok 4.
Proof. vm_compute. reflexivity. Qed.

Example omega_brute_47 : verify_local_roots.omega_brute 47 = Ok 0.
Proof. vm_compute. reflexivity. Qed.

Example omega_brute_283 : verify_local_roots.omega_brute 283 = Ok 46.
Proof. vm_compute. reflexivity. Qed.

Example omega_brute_neg : verify_local_roots.omega_brute (-3) = Ok 0.
Proof. vm_compute. reflexivity. Qed.

Example verify_mod47_run : verify_local_roots.verify_mod47 = Ok true.
Proof. vm_compute. reflexivity. Qed.

(** ** Facts about the runtime fragment *)

Section runtime_facts.

Context {A : Type}.
Implicit Types (l : list A) (i : Z) (v : A).

Lemma norm_index_in_range l i :
  0 <= i < Z.of_nat (length l) -> norm_index l i = Ok (Z.to_nat i).
Proof.
  intros Hi. unfold norm_index.
  destruct (Z.leb_spec 0 i); [|lia].
  destruct (Z.ltb_spec i (Z.of_nat (length l))); [|lia].
  reflexivity.
Qed.

Lemma norm_index_out_of_range l i :
  Z.of_nat (length l) <= i -> norm_index l i = Raise IndexError.
Proof.
  intros Hi. unfold norm_index.
  destruct (Z.ltb_spec i (Z.of_nat (length l))); [lia|].
  destruct (Z.ltb_spec i 0); [lia|].
  rewrite !andb_false_r. reflexivity.
Qed.

Lemma setitem_in_range l i v :
  0 <= i < Z.of_nat (length l) -> setitem l i v = Ok (<[Z.to_nat i := v]> l).
Proof. intros Hi. unfold setitem. rewrite norm_index_in_range; done. Qed.

Lemma setitem_out_of_range l i v :
  Z.of_nat (length l) <= i -> setitem l i v = Raise IndexError.
Proof. intros Hi. unfold setitem. rewrite norm_index_out_of_range; done. Qed.

Lemma getitem_lookup l i v :
  0 <= i -> l !! Z.to_nat i = Some v -> getitem l i = Ok v.
Proof.
  intros Hi Hl. unfold getitem.
  apply lookup_lt_Some in Hl as Hlt.
  rewrite norm_index_in_range by lia. simpl. rewrite Hl. reflexivity.
Qed.

(** The loop rule: an invariant over the elements already visited that
    every iteration re-establishes holds when the loop ends, and the loop
    raises nothing. *)
Lemma for_each_inv {S B : Type} (I : list B -> S -> Prop)
    (body : S -> B -> res S) (xs : list B) (s0 : S) :
  I [] s0 ->
  (forall seen x rest s, xs = seen ++ x :: rest -> I seen s ->
     exists s', body s x = Ok s' /\ I (seen ++ [x]) s') ->
  exists s', for_each xs body s0 = Ok s' /\ I xs s'.
Proof.
  intros H0 Hstep.
  assert (Hgen : forall rest seen s, xs = seen ++ rest -> I seen s ->
            exists s', for_each rest body s = Ok s' /\ I xs s').
  { induction rest as [|x rest IH]; intros seen s Hxs Hs.
    - rewrite app_nil_r in Hxs. subst seen. exists s. done.
    - destruct (Hstep seen x rest s Hxs Hs) as (s1 & Hb & Hs1).
      simpl. rewrite Hb. simpl.
      apply (IH (seen ++ [x])); [|done].
      rewrite <- app_assoc. done. }
  apply (Hgen xs [] s0); done.
Qed.

End runtime_facts.

(** ** Flag arrays *)

Section flag_arrays.

Implicit Types (l : list bool) (k : Z).

Lemma flag_insert_false l j k :
  0 <= j -> 0 <= k ->
  flag (<[Z.to_nat j := false]> l) k <-> flag l k /\ k <> j.
Proof.
  intros Hj Hk. unfold flag.
  destruct (decide (k = j)) as [->|Hne].
  - split; [|tauto]. intros H.
    apply lookup_lt_Some in H as Hlt. rewrite length_insert in Hlt.
    rewrite list_lookup_insert_eq in H by done. discriminate.
  - rewrite list_lookup_insert_ne by lia. tauto.
Qed.

(** [for j in js: flags[j] = False], all subscripts in range: no exception,
    and exactly the flags at [js] are cleared. *)
Lemma clear_loop_spec l (js : list Z) :
  (forall j, j ∈ js -> 0 <= j < Z.of_nat (length l)) ->
  exists l',
    for_each js (fun fl j => setitem fl j false) l = Ok l' /\
    length l' = length l /\
    forall k, 0 <= k -> (flag l' k <-> flag l k /\ k ∉ js).
Proof.
  intros Hjs.
  pose (I := fun (seen : list Z) (s : list bool) =>
    length s = length l /\
    forall k, 0 <= k -> (flag s k <-> flag l k /\ k ∉ seen)).
  destruct (for_each_inv I (fun fl j => setitem fl j false) js l)
    as (l' & Hrun & Hlen & Hfl).
  - split; [done|]. intros k _. rewrite elem_of_nil. tauto.
  - intros seen x rest s Hxs [Hlen Hfl].
    assert (Hx : 0 <= x < Z.of_nat (length l)).
    { apply Hjs. rewrite Hxs, elem_of_app, elem_of_cons. tauto. }
    exists (<[Z.to_nat x := false]> s). split.
    + apply setitem_in_range. lia.
    + split; [by rewrite length_insert|].
      intros k Hk. rewrite flag_insert_false by lia.
      rewrite Hfl by done. rewrite not_elem_of_app, list_elem_of_singleton.
      tauto.
  - exists l'. done.
Qed.

Lemma range_step_pos (start stop step : Z) :
  0 < step ->
  exists js,
    range_step start stop step = Ok js /\
    forall k, k ∈ js <-> start <= k < stop /\ (step | k - start).
Proof.
  intros Hstep. unfold range_step.
  destruct (Z.eqb_spec step 0); [lia|].
  destruct (Z.ltb_spec 0 step); [|lia].
  eexists. split; [reflexivity|].
  intros k. rewrite list_elem_of_fmap. setoid_rewrite elem_of_seqZ.
  set (a := stop - start + step - 1).
  assert (Hlo : step * (a / step) <= a) by (apply Z.mul_div_le; lia).
  split.
  - intros (t & -> & Ht). split.
    + subst a. nia.
    + exists t. lia.
  - intros (Hk & t & Ht). exists t. split; [lia|].
    assert (0 <= t) by nia.
    assert (t + 1 <= a / step); [|lia].
    apply Z.div_le_lower_bound; [lia|]. subst a. nia.
Qed.

End flag_arrays.

(** ** The sieve of Eratosthenes *)

Section sieve.

Lemma bind_Ok {A B : Type} (a : A) (k : A -> res B) : bind (Ok a) k = k a.
Proof. reflexivity. Qed.

Lemma flag_list_mul (m k : Z) : 0 <= k -> flag (list_mul true m) k <-> k < m.
Proof.
  intros Hk. unfold flag, list_mul. rewrite lookup_replicate.
  split; [intros [_ H]; lia | intros H; split; [done | lia]].
Qed.

Lemma getitem_flag l k :
  0 <= k < Z.of_nat (length l) -> getitem l k = Ok (bool_decide (flag l k)).
Proof.
  intros Hk. destruct (lookup_lt_is_Some_2 l (Z.to_nat k)) as [b Hb]; [lia|].
  rewrite (getitem_lookup l k b) by (done || lia).
  f_equal. symmetry. destruct b.
  - by apply bool_decide_eq_true_2.
  - apply bool_decide_eq_false_2. unfold flag. congruence.
Qed.

(** The comprehension that reads the flags is a filter. *)
Lemma comprehension_flags l (xs : list Z) :
  (forall x, x ∈ xs -> 0 <= x < Z.of_nat (length l)) ->
  comprehension xs (fun i => getitem l i) = Ok (filter (flag l) xs).
Proof.
  induction xs as [|x xs IH]; intros Hxs; [done|].
  simpl. rewrite getitem_flag by (apply Hxs; left).
  rewrite bind_Ok, IH by (intros y Hy; apply Hxs; by right).
  rewrite bind_Ok, filter_cons. by case_bool_decide; case_decide.
Qed.

(** The first two assignments. *)
Lemma sieve_init n :
  1 <= n ->
  exists l0 l,
    setitem (list_mul true (n + 1)) 0 false = Ok l0 /\
    setitem l0 1 false = Ok l /\
    sieve_inv n 1 l.
Proof.
  intros Hn.
  assert (Hlen : length (list_mul true (n + 1)) = Z.to_nat (n + 1))
    by apply length_replicate.
  eexists _, _. split; [apply setitem_in_range; lia|].
  split; [apply setitem_in_range; rewrite length_insert; lia|].
  split.
  - by rewrite !length_insert.
  - intros k Hk. rewrite !flag_insert_false by lia.
    rewrite flag_list_mul by lia. split.
    + intros [[_ ?] ?]. split; [lia|]. intros d Hd. lia.
    + intros [? _]. lia.
Qed.

(** One iteration of the outer loop. *)
Lemma sieve_step n t l :
  2 <= t <= n -> sieve_inv n (t - 1) l ->
  exists l',
    (let! b := getitem l t in
     if b : bool then
       let! js := range_step (t * t) (n + 1) t in
       for_each js (fun is_prime j => setitem is_prime j false) l
     else Ok l) = Ok l' /\ sieve_inv n t l'.
Proof.
  intros Ht [Hlen Hinv].
  rewrite getitem_flag by lia. rewrite bind_Ok.
  case_bool_decide as Hft.
  - destruct (range_step_pos (t * t) (n + 1) t) as (js & -> & Hjs); [lia|].
    rewrite bind_Ok.
    destruct (clear_loop_spec l js) as (l' & -> & Hlen' & Hfl).
    { intros j Hj. apply Hjs in Hj. nia. }
    exists l'. split; [done|]. split; [congruence|].
    intros k Hk. rewrite Hfl, Hinv, Hjs by lia.
    assert (Hdiv : (t | k - t * t) <-> (t | k)).
    { split; intros [c Hc]; [exists (c + t) | exists (c - t)]; lia. }
    rewrite Hdiv. split.
    + intros [[H2 Hd] Hnot]. split; [done|]. intros d Hdt Hdd Hdk.
      destruct (decide (d = t)) as [->|]; [|apply (Hd d); [lia|done..]].
      apply Hnot. split; [lia|done].
    + intros [H2 Hd]. split; [split; [done|]|].
      * intros d Hdt. apply Hd. lia.
      * intros [Hr Htk]. apply (Hd t); [lia..|done].
  - exists l. split; [done|]. split; [done|].
    intros k Hk. rewrite Hinv by done. split.
    + intros [H2 Hd]. split; [done|]. intros d Hdt Hdd Hdk.
      destruct (decide (d = t)) as [->|]; [|apply (Hd d); [lia|done..]].
      apply Hft, Hinv; [lia|]. split; [lia|].
      intros e He Hee Het. apply (Hd e); [lia|nia|].
      by apply Z.divide_trans with t.
    + intros [H2 Hd]. split; [done|]. intros d Hdt. apply Hd. lia.
Qed.

(** The outer loop. *)
Lemma sieve_loop n r l :
  r <= n -> sieve_inv n 1 l ->
  exists l',
    for_each (range 2 (r + 1))
      (fun is_prime i =>
         let! b := getitem is_prime i in
         if b : bool then
           let! js := range_step (i * i) (n + 1) i in
           for_each js (fun is_prime j => setitem is_prime j false) is_prime
         else Ok is_prime) l = Ok l' /\
    sieve_inv n (Z.max 1 r) l'.
Proof.
  intros Hr H1.
  pose (I := fun (seen : list Z) (s : list bool) =>
    sieve_inv n (1 + Z.of_nat (length seen)) s).
  match goal with |- exists l', for_each ?xs ?body _ = _ /\ _ =>
    destruct (for_each_inv I body xs l) as (l' & Hrun & Hl') end.
  - unfold I. simpl. by rewrite Z.add_0_r.
  - intros seen x rest s Hxs Hs.
    assert (Hx : range 2 (r + 1) !! length seen = Some x).
    { rewrite Hxs. by apply list_lookup_middle. }
    apply lookup_seqZ in Hx as [-> Hlt].
    destruct (sieve_step n (2 + Z.of_nat (length seen)) s) as (s' & Hb & Hs').
    + lia.
    + by replace (2 + Z.of_nat (length seen) - 1)
        with (1 + Z.of_nat (length seen)) by lia.
    + exists s'. split; [done|]. unfold I. rewrite length_app. simpl.
      by replace (1 + Z.of_nat (length seen + 1))
        with (2 + Z.of_nat (length seen)) by lia.
  - exists l'. split; [done|]. unfold I, range in Hl'.
    rewrite length_seqZ in Hl'.
    by replace (1 + Z.of_nat (Z.to_nat (r + 1 - 2))) with (Z.max 1 r) in Hl'
      by lia.
Qed.

End sieve.

Section sieve_result.

(** A number at least 2 is prime when no [d >= 2] with [d * d] at most the
    number divides it. *)
Lemma prime_no_small_divisor k :
  Z.prime k <-> 2 <= k /\ forall d, 2 <= d -> d * d <= k -> ~ (d | k).
Proof.
  unfold Z.prime. split.
  - intros [Hk Hp]. split; [lia|].
    intros d Hd Hdd. apply Hp. nia.
  - intros [Hk Hd]. split; [lia|].
    intros m Hm [c Hc].
    destruct (Z_le_gt_dec (m * m) k) as [Hle|Hgt].
    + apply (Hd m); [lia|done|]. by exists c.
    + apply (Hd c); [nia|nia|]. exists m. lia.
Qed.

Lemma sieve_inv_prime n l k :
  sieve_inv n (Z.max 1 (int_sqrt n)) l -> 0 <= k <= n ->
  (flag l k <-> Z.prime k).
Proof.
  intros [_ Hinv] Hk. rewrite Hinv, prime_no_small_divisor by done.
  unfold int_sqrt.
  pose proof (Z.sqrt_spec n ltac:(lia)) as Hs. cbv zeta in Hs.
  pose proof (Z.sqrt_nonneg n).
  split; intros [H2 Hd]; (split; [done|]); intros d Hd2 Hdd.
  - apply Hd; [|done]. nia.
  - apply Hd; [lia|done].
Qed.

Lemma seqZ_sorted (m n : Z) : StronglySorted Z.lt (seqZ m n).
Proof.
  remember (Z.to_nat n) as c eqn:Hc.
  revert m n Hc. induction c as [|c IH]; intros m n Hc.
  - rewrite seqZ_nil by lia. constructor.
  - rewrite seqZ_cons by lia. constructor.
    + apply IH. lia.
    + apply Forall_forall. intros x Hx. apply elem_of_seqZ in Hx. lia.
Qed.

Lemma filter_sorted {A : Type} (R : relation A) (P : A -> Prop)
    `{!forall x, Decision (P x)} (l : list A) :
  StronglySorted R l -> StronglySorted R (filter P l).
Proof.
  induction 1 as [|x l Hs IH Hx]; [constructor|].
  rewrite filter_cons. case_decide; [|done].
  constructor; [done|].
  apply Forall_forall. intros y Hy. apply list_elem_of_filter in Hy as [_ Hy].
  rewrite Forall_forall in Hx. by apply Hx.
Qed.

(** The flag array that [sieve_primes n] reads its result from. *)
Lemma sieve_primes_flags n :
  1 <= n ->
  exists l,
    length l = Z.to_nat (n + 1) /\
    (forall k, 0 <= k <= n -> (flag l k <-> Z.prime k)) /\
    sieve_primes n = Ok (filter (flag l) (range 2 (n + 1))).
Proof.
  intros Hn.
  destruct (sieve_init n Hn) as (l0 & l1 & Hset0 & Hset1 & H1).
  destruct (sieve_loop n (int_sqrt n) l1) as (l & Hloop & Hl); [|done|].
  { unfold int_sqrt. pose proof (Z.sqrt_spec n ltac:(lia)) as Hs.
    cbv zeta in Hs. pose proof (Z.sqrt_nonneg n). nia. }
  exists l. split; [apply Hl|]. split.
  - intros k Hk. by apply sieve_inv_prime with n.
  - unfold sieve_primes.
    rewrite Hset0, bind_Ok, Hset1, bind_Ok, Hloop, bind_Ok.
    apply comprehension_flags.
    intros x Hx. apply elem_of_seqZ in Hx. destruct Hl as [Hlen _]. lia.
Qed.

(** What [sieve_primes] returns on every bound from 1 on. *)
Lemma sieve_primes_spec n :
  1 <= n ->
  exists ps,
    sieve_primes n = Ok ps /\
    StronglySorted Z.lt ps /\
    NoDup ps /\
    forall p, p ∈ ps <-> Z.prime p /\ p <= n.
Proof.
  intros Hn. destruct (sieve_primes_flags n Hn) as (l & Hlen & Hfl & Hrun).
  eexists. split; [exact Hrun|]. split; [|split].
  - apply filter_sorted, seqZ_sorted.
  - apply NoDup_filter, NoDup_seqZ.
  - intros p. rewrite list_elem_of_filter. unfold range.
    rewrite elem_of_seqZ. split.
    + intros [Hf Hp]. split; [apply Hfl; [lia|done]|lia].
    + intros [Hp Hle]. pose proof (Z.prime_ge_2 p Hp).
      split; [apply Hfl; [lia|done]|lia].
Qed.

(** On a bound below 1 the second assignment, or already the first, is out
    of range. *)
Lemma sieve_primes_nonpositive n : n <= 0 -> sieve_primes n = Raise IndexError.
Proof.
  intros Hn. unfold sieve_primes.
  destruct (decide (n = 0)) as [->|Hne].
  - reflexivity.
  - rewrite setitem_out_of_range; [done|].
    unfold list_mul. rewrite length_replicate. lia.
Qed.

End sieve_result.

(** ** The sieve for effective moduli *)

Section effective_moduli.

Lemma effective_test p : (p - 1) mod 47 = 0 <-> p mod 47 = 1.
Proof. split; intros H; Z.div_mod_to_equations; lia. Qed.

Lemma effective_1 : effective 1.
Proof.
  intros p Hp Hd. apply Z.prime_ge_2 in Hp.
  apply Z.divide_1_r_nonneg in Hd; lia.
Qed.

Lemma not_effective_multiple p q :
  Z.prime p -> p mod 47 <> 1 -> (p | q) -> ~ effective q.
Proof. intros Hp Hm Hd He. apply Hm. by apply He. Qed.

Lemma filter_ext_elem {A : Type} (P Q : A -> Prop)
    `{!forall x, Decision (P x), !forall x, Decision (Q x)} (l : list A) :
  (forall x, x ∈ l -> (P x <-> Q x)) -> filter P l = filter Q l.
Proof.
  induction l as [|a l IH]; intros Hext; [done|].
  rewrite !filter_cons.
  rewrite IH by (intros x Hx; apply Hext; by right).
  pose proof (Hext a ltac:(left)) as Ha.
  do 2 case_decide; tauto.
Qed.

(** [sum] of a flag array counts the subscripts whose flag is set. *)
Lemma sum_bool_flags (l : list bool) :
  sum_bool l =
  Z.of_nat (length (filter (flag l) (seqZ 0 (Z.of_nat (length l))))).
Proof.
  unfold sum_bool. induction l as [|b l IH] using rev_ind; [done|].
  rewrite foldl_snoc, IH, length_app. simpl.
  rewrite Nat.add_1_r, seqZ_S, filter_app, length_app, Z.add_0_l.
  rewrite (filter_ext_elem (flag (l ++ [b])) (flag l) (seqZ 0 _)).
  - rewrite filter_cons, filter_nil.
    assert (Hb : flag (l ++ [b]) (Z.of_nat (length l)) <-> b = true).
    { unfold flag. rewrite Nat2Z.id, list_lookup_middle by done.
      split; congruence. }
    case_decide; destruct b; simpl; intuition (try discriminate; lia).
  - intros x Hx. apply elem_of_seqZ in Hx. unfold flag.
    by rewrite lookup_app_l by lia.
Qed.

(** One iteration of the loop over the primes. *)
Lemma eff_step D seen x l :
  Z.prime x -> x <= D -> eff_inv D seen l ->
  exists l',
    (if negb ((x - 1) mod 47 =? 0) then
       let! ms := range_step x (D + 1) x in
       for_each ms (fun is_eff m => setitem is_eff m false) l
     else Ok l) = Ok l' /\ eff_inv D (seen ++ [x]) l'.
Proof.
  intros Hx HxD [Hlen Hinv]. apply Z.prime_ge_2 in Hx.
  destruct (Z.eqb_spec ((x - 1) mod 47) 0) as [He|Hne]; simpl.
  - exists l. split; [done|]. split; [done|].
    intros k Hk. rewrite Hinv by done.
    split; intros [H1 Hp]; (split; [done|]); intros p Hin.
    + apply elem_of_app in Hin as [Hin|Hin]; [by apply Hp|].
      apply list_elem_of_singleton in Hin as ->. done.
    + apply Hp, elem_of_app. by left.
  - destruct (range_step_pos x (D + 1) x) as (ms & -> & Hms); [lia|].
    rewrite bind_Ok.
    destruct (clear_loop_spec l ms) as (l' & -> & Hlen' & Hfl).
    { intros j Hj. apply Hms in Hj. lia. }
    exists l'. split; [done|]. split; [congruence|].
    intros k Hk. rewrite Hfl, Hinv, Hms by lia.
    assert (Hdiv : (x | k - x) <-> (x | k)).
    { split; intros [c Hc]; [exists (c + 1) | exists (c - 1)]; lia. }
    rewrite Hdiv. split.
    + intros [[H1 Hp] Hnot]. split; [done|]. intros p Hin Hpe Hpk.
      apply elem_of_app in Hin as [Hin|Hin]; [by apply (Hp p)|].
      apply list_elem_of_singleton in Hin as ->.
      apply Hnot. split; [|done].
      pose proof (Z.divide_pos_le x k ltac:(lia) Hpk). lia.
    + intros [H1 Hp]. split; [split; [done|]|].
      * intros p Hin. apply Hp, elem_of_app. by left.
      * intros [_ Hxk]. apply (Hp x); [|done..].
        apply elem_of_app. right. by apply list_elem_of_singleton.
Qed.

(** The flag array that [count_effective_moduli D] sums. *)
Lemma count_effective_moduli_flags D :
  1 <= D ->
  exists l,
    length l = Z.to_nat (D + 1) /\
    (forall k, 0 <= k <= D -> (flag l k <-> 1 <= k /\ effective k)) /\
    count_effective_moduli D = Ok (sum_bool l).
Proof.
  intros HD.
  destruct (sieve_primes_spec D HD) as (ps & Hps & _ & _ & Hin).
  assert (Hlen : length (list_mul true (D + 1)) = Z.to_nat (D + 1))
    by apply length_replicate.
  match goal with |- context [count_effective_moduli] =>
    destruct (for_each_inv (eff_inv D)
      (fun is_eff p =>
         if negb ((p - 1) mod 47 =? 0) then
           let! ms := range_step p (D + 1) p in
           for_each ms (fun is_eff m => setitem is_eff m false) is_eff
         else Ok is_eff) ps (<[Z.to_nat 0 := false]> (list_mul true (D + 1))))
      as (l & Hloop & Hl) end.
  - split; [by rewrite length_insert|].
    intros k Hk. rewrite flag_insert_false, flag_list_mul by lia.
    split; [intros [_ ?]; split; [lia|]; intros p Hp; by apply elem_of_nil in Hp
           | intros [? _]; lia].
  - intros seen x rest s Hxs Hs. apply eff_step; [..|done].
    + apply (Hin x). rewrite Hxs, elem_of_app, elem_of_cons. tauto.
    + apply (Hin x). rewrite Hxs, elem_of_app, elem_of_cons. tauto.
  - exists l. split; [apply Hl|]. split.
    + intros k Hk. destruct Hl as [_ Hl]. rewrite Hl by done.
      split; intros [H1 He]; (split; [done|]).
      * intros p Hp Hpk. apply effective_test.
        destruct (decide ((p - 1) mod 47 = 0)) as [|Hne]; [done|].
        exfalso. apply (He p); [|done..]. apply Hin. split; [done|].
        pose proof (Z.prime_ge_2 p Hp).
        pose proof (Z.divide_pos_le p k ltac:(lia) Hpk). lia.
      * intros p Hp Hne Hpk. apply Hne, effective_test, He; [|done].
        by apply Hin.
    + unfold count_effective_moduli.
      rewrite setitem_in_range by lia.
      rewrite bind_Ok, Hps, bind_Ok, Hloop, bind_Ok. done.
Qed.

(** What [count_effective_moduli] returns on every bound from 1 on: the
    length of a duplicate-free enumeration of the effective moduli up to
    the bound. *)
Lemma count_effective_moduli_spec D :
  1 <= D ->
  exists qs,
    count_effective_moduli D = Ok (Z.of_nat (length qs)) /\
    NoDup qs /\
    forall q, q ∈ qs <-> 1 <= q <= D /\ effective q.
Proof.
  intros HD.
  destruct (count_effective_moduli_flags D HD) as (l & Hlen & Hfl & Hrun).
  exists (filter (flag l) (seqZ 0 (Z.of_nat (length l)))).
  split; [by rewrite Hrun, sum_bool_flags|].
  split; [apply NoDup_filter, NoDup_seqZ|].
  intros q. rewrite list_elem_of_filter, elem_of_seqZ. split.
  - intros [Hf Hq]. apply Hfl in Hf; [|lia]. split; [lia|tauto].
  - intros [Hq He]. split; [apply Hfl; [lia|]; split; [lia|done] | lia].
Qed.

(** From bound 2 on, lowering the bound by one does not raise the count. *)
Lemma count_effective_moduli_mono D :
  2 <= D ->
  exists a b,
    count_effective_moduli D = Ok a /\
    count_effective_moduli (D - 1) = Ok b /\
    b <= a.
Proof.
  intros HD.
  destruct (count_effective_moduli_spec D) as (qs & Hqs & _ & Hin); [lia|].
  destruct (count_effective_moduli_spec (D - 1))
    as (qs' & Hqs' & Hnd' & Hin'); [lia|].
  eexists _, _. split; [done|]. split; [done|].
  apply Nat2Z.inj_le, submseteq_length, NoDup_submseteq; [done|].
  intros q Hq. apply Hin. apply Hin' in Hq. split; [lia|tauto].
Qed.

(** At bound 0 the call to [sieve_primes] raises. *)
Lemma count_effective_moduli_0 : count_effective_moduli 0 = Raise IndexError.
Proof. reflexivity. Qed.

End effective_moduli.

(** ** The local root count *)

Section local_roots.

Import verify_local_roots.

Lemma sieve_primes_same :
  verify_local_roots.sieve_primes = count_effective_moduli.sieve_primes.
Proof. reflexivity. Qed.

Lemma Q_mod_nonzero n p :
  p <> 0 ->
  Q_mod n p = Ok ((n ^ 47 mod p - ((n - 1) mod p) ^ 47 mod p) mod p).
Proof.
  intros Hp. unfold Q_mod, pow3, mod_.
  destruct (Z.eqb_spec p 0); [done|]. reflexivity.
Qed.

Lemma omega_brute_loop p (xs : list Z) (c : Z) :
  p <> 0 ->
  for_each xs
    (fun count n =>
       let! q := Q_mod n p in
       if q =? 0 then Ok (count + 1) else Ok count) c
  = Ok (c + Z.of_nat (length (filter (is_root p) xs))).
Proof.
  intros Hp. revert c. induction xs as [|x xs IH]; intros c.
  - simpl. f_equal. lia.
  - simpl. rewrite Q_mod_nonzero, bind_Ok by done.
    rewrite filter_cons. unfold is_root at 2.
    destruct (Z.eqb_spec ((x ^ 47 mod p - ((x - 1) mod p) ^ 47 mod p) mod p) 0)
      as [He|Hne]; rewrite bind_Ok, IH; case_decide; try done;
      simpl; f_equal; lia.
Qed.

(** [omega_brute] raises nothing, whatever its argument, and counts the
    roots among the residues [0 .. p-1]. *)
Lemma omega_brute_count p :
  omega_brute p = Ok (Z.of_nat (length (filter (is_root p) (seqZ 0 p)))).
Proof.
  unfold omega_brute, range. rewrite Z.sub_0_r.
  destruct (decide (p = 0)) as [->|Hp]; [done|].
  by rewrite omega_brute_loop.
Qed.

Lemma pow47_minus_one p : 2 <= p -> (p - 1) ^ 47 mod p = p - 1.
Proof.
  intros Hp. rewrite <- Z.mod_pow_l.
  replace ((p - 1) mod p) with ((-1) mod p).
  - rewrite Z.mod_pow_l.
    change ((-1) ^ 47) with (-1).
    symmetry. apply Z.mod_unique with (-1); lia.
  - rewrite (Z.mod_small (p - 1)) by lia.
    symmetry. apply Z.mod_unique with (-1); lia.
Qed.

(** Residue 0 is never a root. *)
Lemma Q_mod_0 p : 2 <= p -> Q_mod 0 p = Ok 1.
Proof.
  intros Hp. rewrite Q_mod_nonzero by lia. f_equal.
  change (0 ^ 47) with 0. rewrite Z.mod_0_l by lia.
  replace ((0 - 1) mod p) with (p - 1)
    by (apply Z.mod_unique with (-1); lia).
  rewrite pow47_minus_one by done.
  symmetry. apply Z.mod_unique with (-1); lia.
Qed.

Lemma not_root_0 p : 2 <= p -> ~ is_root p 0.
Proof.
  intros Hp Hr. pose proof (Q_mod_0 p Hp) as HQ.
  rewrite Q_mod_nonzero in HQ by lia. unfold is_root in Hr. congruence.
Qed.

Lemma omega_brute_range p :
  2 <= p -> exists c, omega_brute p = Ok c /\ 0 <= c <= p - 1.
Proof.
  intros Hp. eexists. split; [apply omega_brute_count|].
  split; [lia|].
  rewrite seqZ_cons, filter_cons_False by (lia || by apply not_root_0).
  pose proof (length_filter (is_root p) (seqZ (Z.succ 0) (Z.pred p))) as Hle.
  rewrite length_seqZ in Hle. lia.
Qed.

End local_roots.

(** ** The root count on machine integers *)

Section machine_count.

Import verify_local_roots.

Lemma wB_value : wB = 2 ^ 63.
Proof. reflexivity. Qed.

Lemma mulmod63_spec a b m :
  0 < (to_Z m) < 2 ^ 31 -> (to_Z a) < (to_Z m) -> (to_Z b) < (to_Z m) ->
  (to_Z (mulmod63 a b m)) = ((to_Z a) * (to_Z b)) mod (to_Z m).
Proof.
  intros Hm Ha Hb. unfold mulmod63.
  rewrite Uint63.mod_spec, Uint63.mul_spec.
  pose proof (to_Z_bounded a). pose proof (to_Z_bounded b).
  rewrite (Z.mod_small ((to_Z a) * (to_Z b))); [done|].
  rewrite wB_value. nia.
Qed.

Lemma powmod63_spec b e m :
  0 < (to_Z m) < 2 ^ 31 -> (to_Z b) < (to_Z m) ->
  (to_Z (powmod63 b e m)) = (to_Z b) ^ Z.pos e mod (to_Z m).
Proof.
  intros Hm Hb. induction e as [e IH|e IH|]; simpl.
  - assert (Hr : (to_Z (powmod63 b e m)) < (to_Z m))
      by (rewrite IH; apply Z.mod_pos_bound; lia).
    assert (Hrr : (to_Z (mulmod63 (powmod63 b e m) (powmod63 b e m) m)) < (to_Z m))
      by (rewrite mulmod63_spec by done; apply Z.mod_pos_bound; lia).
    rewrite !mulmod63_spec, IH by done.
    rewrite <- Z.mul_mod by lia. rewrite Z.mul_mod_idemp_l by lia.
    f_equal. replace (Z.pos e~1) with (Z.pos e + Z.pos e + 1) by lia.
    rewrite !Z.pow_add_r, Z.pow_1_r by lia. done.
  - assert (Hr : (to_Z (powmod63 b e m)) < (to_Z m))
      by (rewrite IH; apply Z.mod_pos_bound; lia).
    rewrite mulmod63_spec, IH by done.
    rewrite <- Z.mul_mod by lia.
    f_equal. replace (Z.pos e~0) with (Z.pos e + Z.pos e) by lia.
    rewrite Z.pow_add_r by lia. done.
  - rewrite Uint63.mod_spec, Z.pow_1_r. done.
Qed.

(** Two residues are equal exactly when their difference is 0 modulo [p]. *)
Lemma is_root_eq p n :
  0 < p ->
  is_root p n <-> n ^ 47 mod p = ((n - 1) mod p) ^ 47 mod p.
Proof.
  intros Hp. unfold is_root.
  pose proof (Z.mod_pos_bound (n ^ 47) p Hp) as Ha.
  pose proof (Z.mod_pos_bound (((n - 1) mod p) ^ 47) p Hp) as Hb.
  revert Ha Hb.
  generalize (n ^ 47 mod p) (((n - 1) mod p) ^ 47 mod p). intros a b Ha Hb.
  split.
  - intros Hz. apply Z.mod_divide in Hz as [c Hc]; [|lia].
    assert (-1 < c < 1) by (split; nia). lia.
  - intros ->. rewrite Z.sub_diag. apply Z.mod_0_l. lia.
Qed.

Lemma count_roots63_spec p fuel : forall n prev acc,
  0 < (to_Z p) < 2 ^ 31 ->
  (to_Z n) + Z.of_nat fuel <= (to_Z p) ->
  (to_Z prev) = (((to_Z n) - 1) mod (to_Z p)) ^ 47 mod (to_Z p) ->
  (to_Z acc) <= (to_Z n) ->
  (to_Z (count_roots63 fuel n prev acc p)) =
  (to_Z acc) + Z.of_nat (length (filter (is_root (to_Z p)) (seqZ (to_Z n) (Z.of_nat fuel)))).
Proof.
  induction fuel as [|fuel IH]; intros n prev acc Hp Hn Hprev Hacc.
  - cbn [count_roots63]. rewrite seqZ_nil by lia. simpl. lia.
  - pose proof (to_Z_bounded n). pose proof (to_Z_bounded acc).
    assert (Hcur : (to_Z (powmod63 n 47 p)) = (to_Z n) ^ 47 mod (to_Z p))
      by (apply powmod63_spec; lia).
    assert (Hn1 : (to_Z (n + 1))%uint63 = (to_Z n) + 1).
    { rewrite Uint63.add_spec, to_Z_1, Z.mod_small; [done|].
      rewrite wB_value. lia. }
    assert (Hacc1 : (to_Z (acc + 1))%uint63 = (to_Z acc) + 1).
    { rewrite Uint63.add_spec, to_Z_1, Z.mod_small; [done|].
      rewrite wB_value. lia. }
    cbn [count_roots63].
    rewrite IH; [| done | lia | | ].
    + rewrite Hn1, (seqZ_cons (to_Z n)), filter_cons by lia.
      replace (Z.pred (Z.of_nat (S fuel))) with (Z.of_nat fuel) by lia.
      replace (Z.succ (to_Z n)) with ((to_Z n) + 1) by lia.
      destruct (Uint63.eqbP (powmod63 n 47 p) prev) as [Heq|Hne];
        rewrite Hcur, Hprev in *; case_decide as Hroot;
        rewrite is_root_eq in Hroot by lia; try done; simpl; lia.
    + rewrite Hn1, Hcur. replace ((to_Z n) + 1 - 1) with (to_Z n) by lia.
      by rewrite (Z.mod_small (to_Z n)) by lia.
    + rewrite Hn1. destruct (powmod63 n 47 p =? prev)%uint63; lia.
Qed.

(** The machine-integer count is the count of [omega_brute]. *)
Lemma omega63_spec (p : Z) :
  0 < p < 2 ^ 31 ->
  omega_brute p = Ok ((to_Z (omega63 (Uint63.of_Z p)))).
Proof.
  intros Hp. rewrite omega_brute_count. f_equal.
  assert (Hof : (to_Z (Uint63.of_Z p)) = p).
  { rewrite of_Z_spec, Z.mod_small; [done|]. rewrite wB_value. lia. }
  unfold omega63. rewrite count_roots63_spec.
  - rewrite Hof, to_Z_0, Z2Nat.id by lia. done.
  - lia.
  - rewrite Hof, to_Z_0, Z2Nat.id; lia.
  - rewrite to_Z_0. rewrite powmod63_spec.
    + rewrite Uint63.sub_spec, to_Z_1, Hof.
      rewrite (Z.mod_small (p - 1)) by (rewrite wB_value; lia).
      f_equal. f_equal. apply Z.mod_unique with (-1); lia.
    + lia.
    + rewrite Uint63.sub_spec, to_Z_1, Hof.
      rewrite (Z.mod_small (p - 1)) by (rewrite wB_value; lia). lia.
  - rewrite to_Z_0. lia.
Qed.

(** Every prime up to [P_MAX] passes the check of [main]: the list the
    sieve returns is run through the machine-integer count. *)
Lemma check_primes_up_to_P_MAX :
  match verify_local_roots.sieve_primes P_MAX with
  | Ok ps => forallb check_prime63 ps
  | Raise _ => false
  end = true.
Proof. vm_compute. reflexivity. Qed.

Lemma omega_brute_theory p :
  Z.prime p -> p <= P_MAX -> omega_brute p = Ok (omega_theory p).
Proof.
  intros Hp Hle. pose proof (Z.prime_ge_2 p Hp).
  pose proof check_primes_up_to_P_MAX as Hall.
  destruct (sieve_primes_spec P_MAX) as (ps & Hps & _ & _ & Hin); [done|].
  rewrite sieve_primes_same, Hps in Hall.
  rewrite forallb_forall in Hall.
  assert (Hc : check_prime63 p = true).
  { apply Hall, list_elem_of_In, Hin. split; assumption. }
  unfold check_prime63 in Hc. apply Z.eqb_eq in Hc.
  rewrite omega63_spec by (unfold P_MAX in Hle; lia).
  f_equal. exact Hc.
Qed.

End machine_count.

(** ** Primality of concrete numbers, read off the sieve *)

Section concrete_primes.

Lemma prime_from_sieve p :
  match sieve_primes p with
  | Ok ps => bool_decide (p ∈ ps)
  | Raise _ => false
  end = true ->
  Z.prime p.
Proof.
  intros Hrun. destruct (Z_le_gt_dec 1 p) as [Hp|Hp].
  - destruct (sieve_primes_spec p Hp) as (ps & Hps & _ & _ & Hin).
    rewrite Hps in Hrun. apply bool_decide_eq_true_1 in Hrun.
    by apply Hin.
  - rewrite sieve_primes_nonpositive in Hrun by lia. discriminate.
Qed.

Lemma prime_47 : Z.prime 47.
Proof. apply prime_from_sieve. vm_compute. reflexivity. Qed.

Lemma prime_283 : Z.prime 283.
Proof. apply prime_from_sieve. vm_compute. reflexivity. Qed.

Lemma not_effective_47 : ~ effective 47.
Proof.
  apply (not_effective_multiple 47); [apply prime_47 | done | reflexivity].
Qed.

End concrete_primes.

(** ** The properties of the specification *)

Section claims.

Import verify_local_roots verify_double_sparsity.

(** C1.  For every bound [D >= 1], [count_effective_moduli D] returns the
    number of integers [q] in [1, D] all of whose prime factors are
    congruent to 1 modulo 47: the result is the length of a duplicate-free
    list holding exactly those integers.  The integer 1, which has no prime
    factor, is always among them, and the prime 47 is not effective. *)
Theorem count_effective_moduli_correct D :
  1 <= D ->
  exists qs,
    count_effective_moduli D = Ok (Z.of_nat (length qs)) /\
    NoDup qs /\
    (forall q, q ∈ qs <-> 1 <= q <= D /\ effective q) /\
    1 ∈ qs /\
    ~ effective 47.
Proof.
  intros HD.
  destruct (count_effective_moduli_spec D HD) as (qs & Hrun & Hnd & Hin).
  exists qs. split; [done|]. split; [done|]. split; [done|]. split.
  - apply Hin. split; [lia | apply effective_1].
  - apply not_effective_47.
Qed.

Lemma count_effective_moduli_correct_witness :
  exists qs,
    count_effective_moduli 100 = Ok (Z.of_nat (length qs)) /\
    NoDup qs /\
    (forall q, q ∈ qs <-> 1 <= q <= 100 /\ effective q) /\
    1 ∈ qs /\
    ~ effective 47.
Proof. apply (count_effective_moduli_correct 100). lia. Defined.

(** C2.  For every prime [p <= 6299], [omega_brute p] equals
    [omega_theory p].  Concretely: at 47 the count is 0 and the class is
    "ramified"; when [(p - 1) mod 47 = 0] and [p <> 47] the count is 46 and
    the class is "splitting"; for every other prime the count is 0 and the
    class is "inert". *)
Theorem omega_brute_matches_theory p :
  Z.prime p -> p <= 6299 ->
  omega_brute p = Ok (omega_theory p) /\
  (p = 47 -> omega_brute p = Ok 0 /\ classify p = "ramified"%string) /\
  ((p - 1) mod 47 = 0 -> p <> 47 ->
     omega_brute p = Ok 46 /\ classify p = "splitting"%string) /\
  (p <> 47 -> (p - 1) mod 47 <> 0 ->
     omega_brute p = Ok 0 /\ classify p = "inert"%string).
Proof.
  intros Hp Hle. rewrite (omega_brute_theory p Hp Hle).
  unfold omega_theory, classify.
  destruct (Z.eqb_spec p 47) as [->|Hne];
    [|destruct (Z.eqb_spec ((p - 1) mod 47) 0) as [He|Hne']];
    repeat split; intros; try done; try congruence.
Qed.

Lemma omega_brute_matches_theory_witness :
  omega_brute 283 = Ok (omega_theory 283) /\
  (283 = 47 -> omega_brute 283 = Ok 0 /\ classify 283 = "ramified"%string) /\
  ((283 - 1) mod 47 = 0 -> 283 <> 47 ->
     omega_brute 283 = Ok 46 /\ classify 283 = "splitting"%string) /\
  (283 <> 47 -> (283 - 1) mod 47 <> 0 ->
     omega_brute 283 = Ok 0 /\ classify 283 = "inert"%string).
Proof. apply (omega_brute_matches_theory 283 prime_283). lia. Defined.

(** C3.  For every bound [N >= 2], [sieve_primes N] (the same function in
    both scripts) returns the strictly increasing, duplicate-free list of
    exactly the primes [p] with [2 <= p <= N]; at bound 100 it is the list
    of 25 elements 2, 3, 5, 7, ..., 97. *)
Theorem sieve_primes_correct N :
  2 <= N ->
  (exists ps,
     count_effective_moduli.sieve_primes N = Ok ps /\
     verify_local_roots.sieve_primes N = Ok ps /\
     StronglySorted Z.lt ps /\
     NoDup ps /\
     forall p, p ∈ ps <-> Z.prime p /\ 2 <= p <= N) /\
  count_effective_moduli.sieve_primes 100 = Ok primes_up_to_100 /\
  length primes_up_to_100 = 25%nat.
Proof.
  intros HN. split; [|split; [vm_compute|]; reflexivity].
  destruct (sieve_primes_spec N) as (ps & Hps & Hs & Hnd & Hin); [lia|].
  exists ps. rewrite sieve_primes_same.
  split; [done|]. split; [done|]. split; [done|]. split; [done|].
  intros p. rewrite Hin. split.
  - intros [Hp Hle]. pose proof (Z.prime_ge_2 p Hp). split; [done | lia].
  - intros [Hp Hr]. split; [done | lia].
Qed.

Lemma sieve_primes_correct_witness :
  (exists ps,
     count_effective_moduli.sieve_primes 10 = Ok ps /\
     verify_local_roots.sieve_primes 10 = Ok ps /\
     StronglySorted Z.lt ps /\
     NoDup ps /\
     forall p, p ∈ ps <-> Z.prime p /\ 2 <= p <= 10) /\
  count_effective_moduli.sieve_primes 100 = Ok primes_up_to_100 /\
  length primes_up_to_100 = 25%nat.
Proof. apply (sieve_primes_correct 10). lia. Defined.

(** C4.  The specification asks that for every [D >= 1] both
    [count_effective_moduli D] and [count_effective_moduli (D - 1)] return,
    the first at least the second.  At [D = 1] the script returns 1 for
    bound 1 but raises [IndexError] for bound 0, from [is_prime[1] = False]
    in [sieve_primes 0].  From bound 2 on both calls return and the counts
    are monotone ([count_effective_moduli_mono]). *)
Theorem count_effective_moduli_at_1 :
  count_effective_moduli 1 = Ok 1 /\
  count_effective_moduli (1 - 1) = Raise IndexError.
Proof. split; reflexivity. Qed.

(** C5.  The specification asks that [count_effective_moduli 0] return 0.
    The script builds the one-entry flag array and clears flag 0, so that
    the sum would be 0, but then [sieve_primes 0] raises [IndexError], which
    [count_effective_moduli] does not catch. *)
Theorem count_effective_moduli_0_raises :
  setitem (list_mul true (0 + 1)) 0 false = Ok [false] /\
  sum_bool [false] = 0 /\
  sieve_primes 0 = Raise IndexError /\
  count_effective_moduli 0 = Raise IndexError.
Proof. repeat split; reflexivity. Qed.

(** C6.  The specification asks that [sieve_primes N] return the empty
    list, without failing, for every [N < 2].  The script does so at
    [N = 1]; at [N = 0] the array has one entry and [is_prime[1] = False]
    raises [IndexError]; at a negative [N] the array is empty and
    [is_prime[0] = False] raises it ([sieve_primes_nonpositive]).  Both
    copies of the function behave the same. *)
Theorem sieve_primes_below_2 :
  count_effective_moduli.sieve_primes 1 = Ok [] /\
  count_effective_moduli.sieve_primes 0 = Raise IndexError /\
  count_effective_moduli.sieve_primes (-1) = Raise IndexError /\
  verify_local_roots.sieve_primes 1 = Ok [] /\
  verify_local_roots.sieve_primes 0 = Raise IndexError /\
  verify_local_roots.sieve_primes (-1) = Raise IndexError.
Proof. repeat split; reflexivity. Qed.

(** C7.  For every residue [r] in [0, 46], [r^47 - ((r-1) mod 47)^47] is
    1 modulo 47; it is the value [verify_mod47] computes for [r], and
    [verify_mod47] returns [True]. *)
Theorem verify_mod47_passes r :
  0 <= r <= 46 ->
  (r ^ 47 - ((r - 1) mod 47) ^ 47) mod 47 = 1 /\
  Q_mod r 47 = Ok 1 /\
  verify_mod47 = Ok true.
Proof.
  intros Hr.
  assert (Hall : forallb
            (fun r => ((r ^ 47 - ((r - 1) mod 47) ^ 47) mod 47 =? 1) &&
                      match Q_mod r 47 with Ok 1 => true | _ => false end)
            (seqZ 0 47) = true) by (vm_compute; reflexivity).
  rewrite forallb_forall in Hall.
  assert (Hin : In r (seqZ 0 47)) by (apply list_elem_of_In, elem_of_seqZ; lia).
  apply Hall, andb_prop in Hin as [H1 H2].
  split; [by apply Z.eqb_eq|]. split; [|reflexivity].
  destruct (Q_mod r 47) as [[|[| |]|]|]; done.
Qed.

Lemma verify_mod47_passes_witness :
  (5 ^ 47 - ((5 - 1) mod 47) ^ 47) mod 47 = 1 /\
  Q_mod 5 47 = Ok 1 /\
  verify_mod47 = Ok true.
Proof. apply (verify_mod47_passes 5). lia. Defined.

(** C8.  [global_exponent] applied to the float [45 / 46] returns exactly
    zero, and so does [restricted_exponent] applied to the float [45 / 23]:
    in binary64 arithmetic [46 * (45 / 46)] and [23 * (45 / 23)] both round
    to 45. *)
Theorem exponents_vanish_at_thresholds :
  global_exponent (45 / 46) = 0%float /\
  restricted_exponent (45 / 23) = 0%float /\
  global_exponent B_crit_global = 0%float /\
  restricted_exponent Bp_crit_restricted = 0%float.
Proof. repeat split; vm_compute; reflexivity. Qed.

(** C9.  For every [p >= 2], in particular for every prime, [omega_brute p]
    returns an integer in [0, p - 1]: residue 0 is never a root, because
    [0^47 - (p-1)^47] is 1 modulo [p], which is the value the loop computes
    for [n = 0]. *)
Theorem omega_brute_bounds p :
  2 <= p ->
  exists c,
    omega_brute p = Ok c /\
    0 <= c <= p - 1 /\
    Q_mod 0 p = Ok 1 /\
    (0 ^ 47 - (p - 1) ^ 47) mod p = 1.
Proof.
  intros Hp. destruct (omega_brute_range p Hp) as (c & Hc & Hr).
  exists c. split; [done|]. split; [done|]. split; [by apply Q_mod_0|].
  rewrite Zminus_mod, pow47_minus_one by done.
  change (0 ^ 47) with 0. rewrite Z.mod_0_l by lia.
  symmetry. apply Z.mod_unique with (-1); lia.
Qed.

Lemma omega_brute_bounds_witness :
  exists c,
    omega_brute 47 = Ok c /\
    0 <= c <= 47 - 1 /\
    Q_mod 0 47 = Ok 1 /\
    (0 ^ 47 - (47 - 1) ^ 47) mod 47 = 1.
Proof. apply (omega_brute_bounds 47). lia. Defined.

(** C10.  [classify] and [omega_theory] test no primality and are defined on
    every integer: [classify p] is "ramified" exactly at 47, "splitting"
    exactly when [(p - 1) mod 47 = 0], and "inert" otherwise, and
    [omega_theory p] is 46 when [classify p] is "splitting" and 0 otherwise.
    The composite 95 = 5 * 19 is classified "splitting", with value 46. *)
Theorem classify_total p :
  (classify p = "ramified"%string /\ p = 47 \/
   classify p = "splitting"%string /\ p <> 47 /\ (p - 1) mod 47 = 0 \/
   classify p = "inert"%string /\ p <> 47 /\ (p - 1) mod 47 <> 0) /\
  omega_theory p =
    (if String.eqb (classify p) "splitting" then 46 else 0) /\
  95 = 5 * 19 /\
  classify 95 = "splitting"%string /\
  omega_theory 95 = 46.
Proof.
  split; [|split; [|by repeat split]]; unfold classify, omega_theory.
  - destruct (Z.eqb_spec p 47) as [Heq|Hne]; [by left|].
    destruct (Z.eqb_spec ((p - 1) mod 47) 0); right; [by left | by right].
  - destruct (Z.eqb_spec p 47) as [Heq|Hne]; [done|].
    destruct (Z.eqb_spec ((p - 1) mod 47) 0); done.
Qed.

End claims.

(** ** Further properties of the two sieves *)

Section sieve_coverage.

Lemma sorted_split (M : Z) (l : list Z) :
  StronglySorted Z.lt l ->
  l = filter (fun x => x <= M) l ++ filter (fun x => M < x) l.
Proof.
  induction 1 as [|x l Hs IH Hx]; [done|].
  rewrite !filter_cons. rewrite Forall_forall in Hx.
  destruct (decide (x <= M)) as [Hle|Hgt].
  - rewrite decide_False by lia. simpl. by f_equal.
  - rewrite decide_True by lia.
    assert (Hnone : filter (fun y => y <= M) l = []).
    { apply elem_of_nil_inv. intros y [Hy Hin]%list_elem_of_filter.
      apply Hx in Hin. lia. }
    assert (Hall : filter (fun y => M < y) l = l).
    { rewrite IH at 2. by rewrite Hnone. }
    by rewrite Hnone, Hall.
Qed.



(** X2.  The sieve at a smaller bound returns an initial segment of the
    sieve at a larger one: for [1 <= M <= N], the primes up to [M] are the
    elements [<= M] of the primes up to [N], and these come first. *)
Theorem sieve_primes_restrict M N :
  1 <= M <= N ->
  exists psM psN,
    sieve_primes M = Ok psM /\
    sieve_primes N = Ok psN /\
    psM = filter (fun p => p <= M) psN /\
    psN = psM ++ filter (fun p => M < p) psN.
Proof.
  intros HMN.
  destruct (sieve_primes_spec M) as (psM & HM & HsM & HndM & HinM); [lia|].
  destruct (sieve_primes_spec N) as (psN & HN & HsN & HndN & HinN); [lia|].
  exists psM, psN. split; [done|]. split; [done|].
  assert (Heq : psM = filter (fun p => p <= M) psN).
  { apply (StronglySorted_unique_strong Z.lt).
    - intros x y _ _ ? ?. lia.
    - done.
    - by apply filter_sorted.
    - apply NoDup_Permutation; [done | by apply NoDup_filter|].
      intros p. rewrite list_elem_of_filter, HinM, HinN.
      split; [intros [? ?]; split; [lia|split; [done|lia]] | tauto]. }
  split; [done|]. rewrite Heq. by apply sorted_split.
Qed.

Lemma sieve_primes_restrict_witness :
  exists psM psN,
    sieve_primes 10 = Ok psM /\
    sieve_primes 30 = Ok psN /\
    psM = filter (fun p => p <= 10) psN /\
    psN = psM ++ filter (fun p => 10 < p) psN.
Proof. apply (sieve_primes_restrict 10 30). lia. Defined.



(** X4.  From bound 1 on the count is monotone in the bound. *)
Theorem count_effective_moduli_monotone D D' :
  1 <= D <= D' ->
  exists a b,
    count_effective_moduli D = Ok a /\
    count_effective_moduli D' = Ok b /\
    a <= b.
Proof.
  intros HD.
  destruct (count_effective_moduli_spec D) as (qs & Hqs & Hnd & Hin); [lia|].
  destruct (count_effective_moduli_spec D') as (qs' & Hqs' & _ & Hin'); [lia|].
  eexists _, _. split; [done|]. split; [done|].
  apply Nat2Z.inj_le, submseteq_length, NoDup_submseteq; [done|].
  intros q Hq. apply Hin'. apply Hin in Hq. split; [lia|tauto].
Qed.

Lemma count_effective_moduli_monotone_witness :
  exists a b,
    count_effective_moduli 5 = Ok a /\
    count_effective_moduli 300 = Ok b /\
    a <= b.
Proof. apply (count_effective_moduli_monotone 5 300). lia. Defined.

Lemma effective_prime p : Z.prime p -> (effective p <-> p mod 47 = 1).
Proof.
  intros Hp. split.
  - intros He. apply He; [done | reflexivity].
  - intros Hm r Hr Hd. pose proof (Z.prime_ge_2 r Hr).
    pose proof (Z.prime_ge_2 p Hp).
    destruct (Z.divide_prime_r r p Hp Hd) as [?|[?|[?|?]]]; subst; try lia; done.
Qed.

(** X5.  Raising the bound by one raises the count by one when the new
    bound is itself an effective modulus, and leaves it unchanged when it is
    not.  In particular, at a prime bound the count rises exactly when the
    prime is congruent to 1 modulo 47: an effective prime is counted from
    its own bound on. *)
Theorem count_effective_moduli_step D :
  2 <= D ->
  exists a b,
    count_effective_moduli D = Ok a /\
    count_effective_moduli (D - 1) = Ok b /\
    (effective D -> a = b + 1) /\
    (~ effective D -> a = b) /\
    (Z.prime D -> a = b + (if D mod 47 =? 1 then 1 else 0)).
Proof.
  intros HD.
  destruct (count_effective_moduli_spec D) as (qs & Hqs & Hnd & Hin); [lia|].
  destruct (count_effective_moduli_spec (D - 1))
    as (qs' & Hqs' & Hnd' & Hin'); [lia|].
  assert (H1 : effective D -> length qs = S (length qs')).
  { intros He.
    assert (Hperm : qs ≡ₚ D :: qs'); [|by rewrite Hperm].
    apply NoDup_Permutation; [done| |].
    - apply NoDup_cons. split; [|done]. rewrite Hin'. lia.
    - intros q. rewrite elem_of_cons, Hin, Hin'. split.
      + intros [Hq Hq']. destruct (decide (q = D)); [by left|].
        right. split; [lia|done].
      + intros [->|[Hq Hq']]; (split; [lia|done]). }
  assert (H0 : ~ effective D -> length qs = length qs').
  { intros Hne.
    assert (Hperm : qs ≡ₚ qs'); [|by rewrite Hperm].
    apply NoDup_Permutation; [done..|].
    intros q. rewrite Hin, Hin'. split.
    + intros [Hq Hq']. split; [|done].
      destruct (decide (q = D)) as [->|]; [done|lia].
    + intros [Hq Hq']. split; [lia|done]. }
  eexists _, _. split; [done|]. split; [done|].
  split; [intros He; rewrite (H1 He); lia|].
  split; [intros Hne; by rewrite (H0 Hne)|].
  intros Hp. rewrite (effective_prime D Hp) in H1, H0.
  destruct (Z.eqb_spec (D mod 47) 1) as [He|Hne].
  - rewrite (H1 He). lia.
  - rewrite (H0 Hne). lia.
Qed.

Lemma count_effective_moduli_step_witness :
  exists a b,
    count_effective_moduli 283 = Ok a /\
    count_effective_moduli (283 - 1) = Ok b /\
    (effective 283 -> a = b + 1) /\
    (~ effective 283 -> a = b) /\
    (Z.prime 283 -> a = b + (if 283 mod 47 =? 1 then 1 else 0)).
Proof. apply (count_effective_moduli_step 283). lia. Defined.

(** X6.  From bound 1 on the count lies between 1 and the bound. *)
Theorem count_effective_moduli_bounds D :
  1 <= D -> exists a, count_effective_moduli D = Ok a /\ 1 <= a <= D.
Proof.
  intros HD.
  destruct (count_effective_moduli_spec D HD) as (qs & Hqs & Hnd & Hin).
  eexists. split; [done|]. split.
  - assert (H1 : 1 ∈ qs) by (apply Hin; split; [lia | apply effective_1]).
    destruct qs; [by apply elem_of_nil in H1 | simpl; lia].
  - assert (Hsub : qs ⊆+ seqZ 1 D).
    { apply NoDup_submseteq; [done|]. intros q Hq.
      apply Hin in Hq. apply elem_of_seqZ. lia. }
    apply submseteq_length in Hsub. rewrite length_seqZ in Hsub. lia.
Qed.

Lemma count_effective_moduli_bounds_witness :
  exists a, count_effective_moduli 50 = Ok a /\ 1 <= a <= 50.
Proof. apply (count_effective_moduli_bounds 50). lia. Defined.

(** X7.  The count is 1 exactly below 283, the least effective modulus
    after 1: for every bound [D >= 1], [count_effective_moduli D] is 1 when
    [D < 283] and at least 2 from 283 on. *)
Theorem count_effective_moduli_first_step D :
  1 <= D ->
  exists a, count_effective_moduli D = Ok a /\ (a = 1 <-> D < 283).
Proof.
  intros HD. destruct (Z_lt_le_dec D 283) as [Hlt|Hge].
  - destruct (count_effective_moduli_spec D HD) as (qs & Hqs & Hnd & Hin).
    destruct (count_effective_moduli_spec 282) as (qs' & Hqs' & _ & Hin');
      [lia|].
    assert (Hlen' : length qs' = 1%nat).
    { assert (Hc : count_effective_moduli 282 = Ok 1) by (vm_compute; reflexivity).
      rewrite Hc in Hqs'. injection Hqs' as Hqs'. lia. }
    assert (Hsub : qs ⊆+ qs').
    { apply NoDup_submseteq; [done|]. intros q Hq.
      apply Hin'. apply Hin in Hq. split; [lia|tauto]. }
    apply submseteq_length in Hsub.
    assert (H1 : 1 ∈ qs) by (apply Hin; split; [lia | apply effective_1]).
    eexists. split; [done|]. split; [done|]. intros _.
    clear Hqs Hqs'. destruct qs; [by apply elem_of_nil in H1|].
    simpl in Hsub |- *. lia.
  - destruct (count_effective_moduli_spec D HD) as (qs & Hqs & Hnd & Hin).
    eexists. split; [done|]. split; [|lia]. intros Hlen.
    assert (H1 : 1 ∈ qs) by (apply Hin; split; [lia | apply effective_1]).
    assert (H283 : 283 ∈ qs).
    { apply Hin. split; [lia|]. by apply (effective_prime 283 prime_283). }
    destruct qs as [|x [|y qs]]; simpl in Hlen; [lia| |lia].
    apply list_elem_of_singleton in H1, H283. lia.
Qed.

Lemma count_effective_moduli_first_step_witness :
  exists a, count_effective_moduli 100 = Ok a /\ (a = 1 <-> 100 < 283).
Proof. apply (count_effective_moduli_first_step 100). lia. Defined.

End sieve_coverage.

(** ** Further properties of the local root count *)

Section root_coverage.

Import verify_local_roots.

(** The value computed for residue [n] is the residue of
    [n^47 - (n-1)^47]: reducing the bases first changes nothing. *)
Lemma Q_mod_value n p : p <> 0 -> Q_mod n p = Ok ((n ^ 47 - (n - 1) ^ 47) mod p).
Proof.
  intros Hp. rewrite Q_mod_nonzero by done. apply (f_equal Ok).
  rewrite <- Zminus_mod.
  rewrite (Zminus_mod (n ^ 47) (((n - 1) mod p) ^ 47)), Z.mod_pow_l.
  by rewrite <- Zminus_mod.
Qed.

Lemma Q_mod_periodic n p : p <> 0 -> Q_mod (n mod p) p = Q_mod n p.
Proof.
  intros Hp. rewrite !Q_mod_value by done. apply (f_equal Ok).
  rewrite (Zminus_mod ((n mod p) ^ 47)), Z.mod_pow_l.
  rewrite <- (Z.mod_pow_l (n mod p - 1)), (Zminus_mod_idemp_l n 1 p), Z.mod_pow_l.
  by rewrite <- Zminus_mod.
Qed.

Lemma Q_mod_47_residues r : 0 <= r < 47 -> Q_mod r 47 = Ok 1.
Proof.
  intros Hr.
  assert (Hall : forallb
            (fun r => match Q_mod r 47 with Ok 1 => true | _ => false end)
            (seqZ 0 47) = true) by (vm_compute; reflexivity).
  rewrite forallb_forall in Hall.
  assert (Hin : In r (seqZ 0 47)) by (apply list_elem_of_In, elem_of_seqZ; lia).
  apply Hall in Hin. destruct (Q_mod r 47) as [[|[| |]|]|]; done.
Qed.

Lemma not_root_1 p : 2 <= p -> ~ is_root p 1.
Proof.
  intros Hp. unfold is_root.
  replace ((1 - 1) mod p) with 0 by (symmetry; apply Z.mod_0_l; lia).
  change (1 ^ 47) with 1. change (0 ^ 47) with 0.
  rewrite Z.mod_0_l, Z.sub_0_r, Z.mod_mod, Z.mod_small by lia. lia.
Qed.

(** X8.  [omega_brute] raises nothing on any integer: its two calls of
    [pow] and its two remainders are only reached with a modulus of at
    least 1.  The count is at most the number of residues, so it is 0 for
    every [p <= 0]; for the modulus 1 it is 1. *)
Theorem omega_brute_total p :
  exists c,
    omega_brute p = Ok c /\
    0 <= c <= Z.max 0 p /\
    omega_brute 1 = Ok 1.
Proof.
  eexists. split; [apply omega_brute_count|]. split; [|reflexivity].
  pose proof (length_filter (is_root p) (seqZ 0 p)) as Hle.
  rewrite length_seqZ in Hle. lia.
Qed.

(** X9.  For every modulus [p >= 2] neither residue 0 nor residue 1 is a
    root, both giving the value 1, so [omega_brute p] is at most [p - 2]. *)
Theorem omega_brute_at_most_p_minus_2 p :
  2 <= p ->
  exists c,
    omega_brute p = Ok c /\
    0 <= c <= p - 2 /\
    Q_mod 0 p = Ok 1 /\
    Q_mod 1 p = Ok 1.
Proof.
  intros Hp. eexists. split; [apply omega_brute_count|].
  split; [|split; [by apply Q_mod_0|]].
  - split; [lia|].
    rewrite (seqZ_cons 0), filter_cons_False by (lia || by apply not_root_0).
    rewrite (seqZ_cons (Z.succ 0)), filter_cons_False
      by (lia || by apply not_root_1).
    pose proof (length_filter (is_root p)
                  (seqZ (Z.succ (Z.succ 0)) (Z.pred (Z.pred p)))) as Hle.
    rewrite length_seqZ in Hle. lia.
  - rewrite Q_mod_value by lia. apply (f_equal Ok).
    change (1 ^ 47) with 1. change ((1 - 1) ^ 47) with 0.
    apply Z.mod_small. lia.
Qed.

Lemma omega_brute_at_most_p_minus_2_witness :
  exists c,
    omega_brute 5 = Ok c /\
    0 <= c <= 5 - 2 /\
    Q_mod 0 5 = Ok 1 /\
    Q_mod 1 5 = Ok 1.
Proof. apply (omega_brute_at_most_p_minus_2 5). lia. Defined.

(** X10.  The value computed for a residue depends on the residue class
    only and is symmetric under [n -> 1 - n]: for every modulus other than
    0, [Q_mod] gives the same at [n], at [n mod p] and at [(1 - n) mod p].
    Roots therefore come in pairs [n], [1 - n]. *)
Theorem Q_mod_symmetric n p :
  p <> 0 ->
  Q_mod (n mod p) p = Q_mod n p /\
  Q_mod ((1 - n) mod p) p = Q_mod n p.
Proof.
  intros Hp. split; [by apply Q_mod_periodic|].
  rewrite Q_mod_periodic by done. rewrite !Q_mod_value by done.
  apply (f_equal Ok). apply (f_equal (fun x => x mod p)).
  replace (1 - n) with (- (n - 1)) by lia.
  replace (- (n - 1) - 1) with (- n) by lia.
  rewrite !Z.pow_opp_odd by (by exists 23). lia.
Qed.

Lemma Q_mod_symmetric_witness :
  Q_mod (10 mod 7) 7 = Q_mod 10 7 /\
  Q_mod ((1 - 10) mod 7) 7 = Q_mod 10 7.
Proof. apply (Q_mod_symmetric 10 7). lia. Defined.

(** X11.  Modulo 47 the value is 1 at every integer, not only at the 47
    residues [verify_mod47] visits: the loop of [verify_mod47] returns
    [True] from any list of integers, and never raises. *)
Theorem verify_mod47_from_any (ns : list Z) :
  verify_mod47_from ns = Ok true /\
  Forall (fun n => Q_mod n 47 = Ok 1) ns.
Proof.
  assert (Hone : forall n, Q_mod n 47 = Ok 1).
  { intros n. rewrite <- Q_mod_periodic by done.
    apply Q_mod_47_residues, Z.mod_pos_bound. lia. }
  split; [|by apply Forall_forall].
  induction ns as [|n ns IH]; [done|].
  cbn [verify_mod47_from]. by rewrite Hone, bind_Ok.
Qed.

End root_coverage.

(** ** The run of [main] in [verify_local_roots.py] *)

Section main_coverage.

Import verify_local_roots.

Lemma classify_cases p :
  classify p = "ramified"%string /\ p = 47 \/
  classify p = "splitting"%string /\ p <> 47 /\ p mod 47 = 1 \/
  classify p = "inert"%string /\ p <> 47 /\ p mod 47 <> 1.
Proof.
  unfold classify. destruct (Z.eqb_spec p 47) as [Heq|Hne]; [by left|].
  right. rewrite <- effective_test.
  destruct (Z.eqb_spec ((p - 1) mod 47) 0); [by left | by right].
Qed.

Lemma count_class_snoc c ps p :
  count_class c (ps ++ [p]) =
  count_class c ps + (if (classify p =? c)%string then 1 else 0).
Proof.
  unfold count_class. rewrite List.filter_app, length_app. simpl.
  destruct (classify p =? c)%string; simpl; lia.
Qed.

Lemma printed_of_snoc rows r :
  printed_of (rows ++ [r]) =
  printed_of rows ++
    (if negb (row_ok r) || negb (row_ptype r =? "inert")%string
     then [(r, if row_ok r then "OK"%string else "FAIL"%string)] else []).
Proof.
  unfold printed_of. rewrite List.filter_app, List.map_app. simpl.
  by destruct (negb (row_ok r) || negb (row_ptype r =? "inert")%string).
Qed.

(** One iteration of the loop of [main]. *)
Lemma loop_body_spec seen st p :
  main_inv seen st ->
  exists st', loop_body st p = Ok st' /\ main_inv (seen ++ [p]) st'.
Proof.
  intros (Hres & Hrows & Hni & Hns & Hnr & Hok & Hpr).
  unfold loop_body. rewrite omega_brute_count, bind_Ok.
  set (c := Z.of_nat (length (filter (is_root p) (seqZ 0 p)))).
  assert (Hrow : row_consistent (p, classify p, omega_theory p, c,
                                 c =? omega_theory p)).
  { repeat split. simpl. apply omega_brute_count. }
  revert Hrow. generalize (c =? omega_theory p). intros ok Hrow.
  assert (Hcount : forall cl,
    count_class cl (seen ++ [p]) =
    count_class cl seen + (if (classify p =? cl)%string then 1 else 0))
    by (intros; apply count_class_snoc).
  destruct (classify_cases p) as [[Hc _]|[[Hc _]|[Hc _]]];
    rewrite Hc in *; cbn [String.eqb Ascii.eqb Bool.eqb negb];
    destruct ok; cbn [negb];
    (eexists; split; [reflexivity|]);
    unfold main_inv; cbn [results n_inert n_split n_ramif all_ok printed];
    rewrite List.map_app, Forall_app, Forall_singleton, forallb_app,
      printed_of_snoc, !Hcount, Hres, Hni, Hns, Hnr, ?Hok, ?Hpr;
    cbn; rewrite ?andb_false_r, ?andb_true_r, ?Z.add_0_r, ?app_nil_r;
    split_and!; done.
Qed.

(** The loop of [main] over any list, from the initial state. *)
Lemma main_loop_spec (ps : list Z) :
  exists st,
    for_each ps loop_body
      {| all_ok := true; results := []; n_inert := 0; n_split := 0;
         n_ramif := 0; printed := [] |} = Ok st /\
    main_inv ps st.
Proof.
  apply (for_each_inv main_inv).
  - by split_and!.
  - intros seen x rest s _ Hs. by apply loop_body_spec.
Qed.

(** [main_with] on a bound from 1 on: the primes it visits and the state it
    ends in. *)
Lemma main_with_spec P :
  1 <= P ->
  exists ps st,
    verify_local_roots.sieve_primes P = Ok ps /\
    NoDup ps /\
    (forall p, p ∈ ps <-> Z.prime p /\ p <= P) /\
    main_inv ps st /\
    main_with P =
      Ok {| final := st;
            status := if all_ok st then "ALL PASS"%string
                      else "SOME FAILED"%string;
            csv_rows :=
              List.filter
                (fun r => negb (row_ptype r =? "inert")%string ||
                          (row_p r <=? 53))
                (results st) |}.
Proof.
  intros HP.
  destruct (sieve_primes_spec P HP) as (ps & Hps & _ & Hnd & Hin).
  destruct (main_loop_spec ps) as (st & Hloop & Hinv).
  exists ps, st. rewrite sieve_primes_same.
  split; [done|]. split; [done|]. split; [done|]. split; [done|].
  assert (Hv : verify_mod47 = Ok true) by (vm_compute; reflexivity).
  unfold main_with. rewrite Hv, bind_Ok, sieve_primes_same, Hps, bind_Ok.
  by rewrite Hloop, bind_Ok.
Qed.

Lemma count_class_partition (ps : list Z) :
  count_class "inert" ps + count_class "splitting" ps
  + count_class "ramified" ps = Z.of_nat (length ps).
Proof.
  induction ps as [|p ps IH] using rev_ind; [done|].
  rewrite !count_class_snoc, length_app. simpl.
  destruct (classify_cases p) as [[-> _]|[[-> _]|[-> _]]]; simpl; lia.
Qed.

Lemma count_class_ramified (ps : list Z) :
  NoDup ps ->
  count_class "ramified" ps = if bool_decide (47 ∈ ps) then 1 else 0.
Proof.
  unfold count_class. induction 1 as [|p ps Hnotin Hnd IH]; [done|].
  cbn [List.filter].
  destruct (classify_cases p) as [[Hc ->]|[[Hc [Hne _]]|[Hc [Hne _]]]];
    rewrite Hc.
  - change ("ramified" =? "ramified")%string with true. cbv iota. cbn [length].
    rewrite bool_decide_eq_true_2 by left.
    rewrite bool_decide_eq_false_2 in IH by done. lia.
  - change ("splitting" =? "ramified")%string with false. cbv iota.
    rewrite IH. apply (f_equal (fun b : bool => if b then 1 else 0)).
    apply bool_decide_ext. rewrite elem_of_cons. intuition congruence.
  - change ("inert" =? "ramified")%string with false. cbv iota.
    rewrite IH. apply (f_equal (fun b : bool => if b then 1 else 0)).
    apply bool_decide_ext. rewrite elem_of_cons. intuition congruence.
Qed.

Lemma count_class_splitting (ps : list Z) :
  count_class "splitting" ps =
  Z.of_nat (length (filter (fun p => p mod 47 = 1) ps)).
Proof.
  unfold count_class. induction ps as [|p ps IH]; [done|].
  cbn [List.filter]. rewrite filter_cons.
  destruct (classify_cases p) as [[Hc ->]|[[Hc [_ Hm]]|[Hc [_ Hm]]]];
    rewrite Hc.
  - change ("ramified" =? "splitting")%string with false. cbv iota.
    by rewrite decide_False by done.
  - change ("splitting" =? "splitting")%string with true. cbv iota.
    rewrite decide_True by done. cbn [length]. lia.
  - change ("inert" =? "splitting")%string with false. cbv iota.
    by rewrite decide_False by done.
Qed.

(** X12.  For every bound from 1 on, the run returns, and [results] holds
    one row per prime up to the bound, in increasing order of the primes;
    each row carries the class of its prime, the closed-form count, the
    brute-force count and whether the two agree. *)
Theorem main_results P :
  1 <= P ->
  exists r ps,
    main_with P = Ok r /\
    verify_local_roots.sieve_primes P = Ok ps /\
    map row_p (results (final r)) = ps /\
    Forall (fun row =>
              row_ptype row = classify (row_p row) /\
              row_theory row = omega_theory (row_p row) /\
              omega_brute (row_p row) = Ok (row_brute row) /\
              row_ok row = (row_brute row =? row_theory row))
           (results (final r)).
Proof.
  intros HP.
  destruct (main_with_spec P HP) as (ps & st & Hps & _ & _ & Hinv & Hrun).
  eexists _, ps. split; [exact Hrun|]. split; [done|].
  destruct Hinv as (Hres & Hrows & _). by split.
Qed.

Lemma main_results_witness :
  exists r ps,
    main_with 100 = Ok r /\
    verify_local_roots.sieve_primes 100 = Ok ps /\
    map row_p (results (final r)) = ps /\
    Forall (fun row =>
              row_ptype row = classify (row_p row) /\
              row_theory row = omega_theory (row_p row) /\
              omega_brute (row_p row) = Ok (row_brute row) /\
              row_ok row = (row_brute row =? row_theory row))
           (results (final r)).
Proof. apply (main_results 100). lia. Defined.

(** X13.  The three counters of [main] partition the primes: they add up to
    the number of rows; [n_ramif] is 1 when the bound reaches 47 and 0
    below; [n_split] is the number of primes up to the bound that are
    congruent to 1 modulo 47. *)
Theorem main_counters P :
  1 <= P ->
  exists r ps,
    main_with P = Ok r /\
    verify_local_roots.sieve_primes P = Ok ps /\
    n_inert (final r) + n_split (final r) + n_ramif (final r)
      = Z.of_nat (length (results (final r))) /\
    n_ramif (final r) = (if 47 <=? P then 1 else 0) /\
    n_split (final r) = Z.of_nat (length (filter (fun p => p mod 47 = 1) ps)) /\
    0 <= n_inert (final r).
Proof.
  intros HP.
  destruct (main_with_spec P HP) as (ps & st & Hps & Hnd & Hin & Hinv & Hrun).
  eexists _, ps. split; [exact Hrun|]. split; [done|].
  destruct Hinv as (Hres & _ & Hni & Hns & Hnr & _). cbn [final].
  rewrite Hni, Hns, Hnr. split_and!.
  - rewrite count_class_partition, <- Hres, length_map. done.
  - rewrite count_class_ramified by done.
    destruct (Z.leb_spec 47 P).
    + rewrite bool_decide_eq_true_2; [done|]. apply Hin.
      split; [apply prime_47 | done].
    + rewrite bool_decide_eq_false_2; [done|]. rewrite Hin. lia.
  - apply count_class_splitting.
  - unfold count_class. lia.
Qed.

Lemma main_counters_witness :
  exists r ps,
    main_with 100 = Ok r /\
    verify_local_roots.sieve_primes 100 = Ok ps /\
    n_inert (final r) + n_split (final r) + n_ramif (final r)
      = Z.of_nat (length (results (final r))) /\
    n_ramif (final r) = (if 47 <=? 100 then 1 else 0) /\
    n_split (final r) = Z.of_nat (length (filter (fun p => p mod 47 = 1) ps)) /\
    0 <= n_inert (final r).
Proof. apply (main_counters 100). lia. Defined.

Lemma row_consistent_ok row :
  row_consistent row ->
  (row_ok row = true <-> row_brute row = row_theory row).
Proof. intros (_ & _ & _ & ->). apply Z.eqb_eq. Qed.

Lemma elem_of_printed_of rows row s :
  (row, s) ∈ printed_of rows <->
  row ∈ rows /\
  (row_ok row = false \/ row_ptype row <> "inert"%string) /\
  s = (if row_ok row then "OK"%string else "FAIL"%string).
Proof.
  unfold printed_of. rewrite list_elem_of_In, in_map_iff.
  setoid_rewrite filter_In. setoid_rewrite <- list_elem_of_In.
  setoid_rewrite orb_true_iff. setoid_rewrite negb_true_iff.
  setoid_rewrite String.eqb_neq. split.
  - intros (r' & [= <- <-] & Hin & Hc). done.
  - intros (Hin & Hc & ->). by exists row.
Qed.

(** X14.  The verdict of a run follows the rows: the status is "ALL PASS"
    exactly when the two counts agree in every row; a line ending in "FAIL"
    is printed exactly for the rows where they differ, a line ending in "OK"
    exactly for the agreeing rows that are not inert; and the CSV file
    receives exactly the rows that are not inert or whose prime is at most
    53. *)
Theorem main_verdict P :
  1 <= P ->
  exists r,
    main_with P = Ok r /\
    (status r = "ALL PASS"%string <->
     Forall (fun row => row_brute row = row_theory row) (results (final r))) /\
    (forall row,
       (row, "FAIL"%string) ∈ printed (final r) <->
       row ∈ results (final r) /\ row_brute row <> row_theory row) /\
    (forall row,
       (row, "OK"%string) ∈ printed (final r) <->
       row ∈ results (final r) /\ row_brute row = row_theory row /\
       row_ptype row <> "inert"%string) /\
    (forall row,
       row ∈ csv_rows r <->
       row ∈ results (final r) /\
       (row_ptype row <> "inert"%string \/ row_p row <= 53)).
Proof.
  intros HP.
  destruct (main_with_spec P HP) as (ps & st & _ & _ & _ & Hinv & Hrun).
  eexists. split; [exact Hrun|]. clear Hrun. cbn [final status csv_rows].
  destruct Hinv as (_ & Hrows & _ & _ & _ & Hok & Hpr).
  rewrite Forall_forall in Hrows. split_and!.
  - rewrite Hok. rewrite Forall_forall. split.
    + intros Hs row Hrow.
      destruct (forallb row_ok (results st)) eqn:Hall; [|discriminate].
      rewrite forallb_forall in Hall.
      apply row_consistent_ok; [by apply Hrows|].
      by apply Hall, list_elem_of_In.
    + intros Hall.
      rewrite (proj2 (forallb_forall row_ok (results st))); [done|].
      intros row Hrow%list_elem_of_In.
      apply row_consistent_ok; [by apply Hrows | by apply Hall].
  - intros row. rewrite Hpr, elem_of_printed_of. split.
    + intros (Hin & _ & Hs). split; [done|].
      rewrite <- (row_consistent_ok row) by (by apply Hrows).
      by destruct (row_ok row).
    + intros (Hin & Hne).
      rewrite <- (row_consistent_ok row) in Hne by (by apply Hrows).
      destruct (row_ok row); [done|]. split_and!; [done|by left|done].
  - intros row. rewrite Hpr, elem_of_printed_of. split.
    + intros (Hin & Hc & Hs). split; [done|].
      rewrite <- (row_consistent_ok row) by (by apply Hrows).
      destruct (row_ok row); [|done]. by destruct Hc.
    + intros (Hin & He & Hne).
      rewrite <- (row_consistent_ok row) in He by (by apply Hrows).
      rewrite He. split_and!; [done|by right|done].
  - intros row. rewrite list_elem_of_In, filter_In, <- list_elem_of_In.
    rewrite orb_true_iff, negb_true_iff, String.eqb_neq, Z.leb_le. done.
Qed.

Lemma main_verdict_witness :
  exists r,
    main_with 100 = Ok r /\
    (status r = "ALL PASS"%string <->
     Forall (fun row => row_brute row = row_theory row) (results (final r))) /\
    (forall row,
       (row, "FAIL"%string) ∈ printed (final r) <->
       row ∈ results (final r) /\ row_brute row <> row_theory row) /\
    (forall row,
       (row, "OK"%string) ∈ printed (final r) <->
       row ∈ results (final r) /\ row_brute row = row_theory row /\
       row_ptype row <> "inert"%string) /\
    (forall row,
       row ∈ csv_rows r <->
       row ∈ results (final r) /\
       (row_ptype row <> "inert"%string \/ row_p row <= 53)).
Proof. apply (main_verdict 100). lia. Defined.

Lemma rows_all_ok rows :
  Forall row_consistent rows ->
  (forall row, row ∈ rows -> Z.prime (row_p row) /\ row_p row <= P_MAX) ->
  forallb row_ok rows = true.
Proof.
  intros Hrows Hp. rewrite Forall_forall in Hrows. apply forallb_forall.
  intros row Hin%list_elem_of_In.
  destruct (Hrows row Hin) as (_ & Hth & Hbr & ->).
  destruct (Hp row Hin) as [Hprime Hle].
  rewrite (omega_brute_theory _ Hprime Hle) in Hbr.
  injection Hbr as <-. rewrite Hth. apply Z.eqb_refl.
Qed.

Lemma printed_of_all_ok rows :
  forallb row_ok rows = true ->
  printed_of rows =
  map (fun r => (r, "OK"%string))
    (List.filter (fun r => negb (row_ptype r =? "inert")%string) rows).
Proof.
  unfold printed_of. induction rows as [|r rows IH]; [done|].
  cbn [forallb List.filter]. intros [Hr Hall]%andb_prop. rewrite Hr.
  cbn [negb orb]. destruct (negb (row_ptype r =? "inert")%string);
    cbn [map]; rewrite ?Hr, IH; done.
Qed.

Lemma filter_rows_by_class (g : string -> Z -> bool) rows :
  Forall row_consistent rows ->
  map row_p (List.filter (fun r => g (row_ptype r) (row_p r)) rows) =
  List.filter (fun p => g (classify p) p) (map row_p rows).
Proof.
  induction 1 as [|r rows Hr Hrows IH]; [done|].
  cbn [List.filter map]. destruct Hr as (-> & _).
  destruct (g (classify (row_p r)) (row_p r)); cbn [map]; by rewrite IH.
Qed.

Lemma non_inert_test p :
  negb (classify p =? "inert")%string = (p =? 47) || (p mod 47 =? 1).
Proof.
  destruct (classify_cases p) as [[-> ->]|[[-> [Hne Hm]]|[-> [Hne Hm]]]].
  - reflexivity.
  - rewrite Hm. change (1 =? 1) with true. by rewrite orb_true_r.
  - rewrite (proj2 (Z.eqb_neq p 47)), (proj2 (Z.eqb_neq (p mod 47) 1)); done.
Qed.

(** X15.  For every bound from 1 to 6299 the run passes: [all_ok] stays
    [True], the status is "ALL PASS", the two counts agree in every row,
    every printed line ends in "OK", and the printed lines are those of 47
    and of the primes congruent to 1 modulo 47, in increasing order. *)
Theorem main_passes P :
  1 <= P <= 6299 ->
  exists r ps,
    main_with P = Ok r /\
    verify_local_roots.sieve_primes P = Ok ps /\
    all_ok (final r) = true /\
    status r = "ALL PASS"%string /\
    Forall (fun row => row_brute row = row_theory row) (results (final r)) /\
    Forall (fun line => line.2 = "OK"%string) (printed (final r)) /\
    map (fun line => row_p line.1) (printed (final r)) =
      List.filter (fun p => (p =? 47) || (p mod 47 =? 1)) ps.
Proof.
  intros HP.
  destruct (main_with_spec P) as (ps & st & Hps & _ & Hin & Hinv & Hrun);
    [lia|].
  eexists _, ps. split; [exact Hrun|]. clear Hrun. split; [done|].
  cbn [final status].
  destruct Hinv as (Hres & Hrows & _ & _ & _ & Hok & Hpr).
  assert (Hall : forallb row_ok (results st) = true).
  { apply rows_all_ok; [done|]. intros row Hrow.
    assert (Hp : row_p row ∈ ps).
    { rewrite <- Hres. apply list_elem_of_In, in_map. by apply list_elem_of_In. }
    apply Hin in Hp as [Hp Hle]. split; [done|]. unfold P_MAX. lia. }
  rewrite Hok, Hall, Hpr, (printed_of_all_ok _ Hall). split_and!; try done.
  - apply Forall_forall. intros row Hrow.
    rewrite Forall_forall in Hrows.
    apply row_consistent_ok; [by apply Hrows|].
    rewrite forallb_forall in Hall. by apply Hall, list_elem_of_In.
  - apply Forall_forall. intros line Hline%list_elem_of_In.
    apply in_map_iff in Hline as (r' & <- & _). done.
  - rewrite List.map_map. cbn [fst].
    rewrite (filter_rows_by_class (fun t _ => negb (t =? "inert")%string))
      by done.
    rewrite Hres. apply List.filter_ext. intros p. apply non_inert_test.
Qed.

Lemma main_passes_witness :
  exists r ps,
    main_with 300 = Ok r /\
    verify_local_roots.sieve_primes 300 = Ok ps /\
    all_ok (final r) = true /\
    status r = "ALL PASS"%string /\
    Forall (fun row => row_brute row = row_theory row) (results (final r)) /\
    Forall (fun line => line.2 = "OK"%string) (printed (final r)) /\
    map (fun line => row_p line.1) (printed (final r)) =
      List.filter (fun p => (p =? 47) || (p mod 47 =? 1)) ps.
Proof. apply (main_passes 300). lia. Defined.

End main_coverage.

(** ** The table of [verify_double_sparsity.py] *)

Section sparsity_coverage.

Import verify_double_sparsity.

Local Open Scope float_scope.

(** X16.  The table [main] tabulates, in binary64 arithmetic.  Over the
    eight values of [B_values] the global exponent is negative for the first
    three only and the restricted exponent for all but the last; on this
    sweep each status agrees with the comparison of the value with its
    threshold, the two threshold rows (where the exponent is exactly zero,
    hence "FAILS") are the ones labelled "45/46" and "45/23", and at the
    standard value 1 the global exponent is [1 / 92], positive, and the
    restricted one [-11 / 23], negative. *)
Theorem sparsity_table :
  map (fun row => let '(_, _, sg, _, sr) := row in (sg, sr)) table =
    [("θ=1/2", "θ=1/2"); ("θ=1/2", "θ=1/2"); ("θ=1/2", "θ=1/2");
     ("FAILS", "θ=1/2"); ("FAILS", "θ=1/2"); ("FAILS", "θ=1/2");
     ("FAILS", "θ=1/2"); ("FAILS", "FAILS")]%string /\
  forallb
    (fun B =>
       let '(_, _, sg, _, sr) := table_row B in
       Bool.eqb (sg =? "θ=1/2")%string (B <? B_crit_global) &&
       Bool.eqb (sr =? "θ=1/2")%string (B <? Bp_crit_restricted))
    B_values = true /\
  map (fun row => let '(l, _, _, _, _) := row in l) table =
    map (fun B =>
           if B =? B_crit_global then Named "45/46"
           else if B =? Bp_crit_restricted then Named "45/23"
           else Formatted B)
        B_values /\
  global_exponent 1 = 1 / 92 /\
  restricted_exponent 1 = -11 / 23 /\
  standard_value_fails = (true, false).
Proof. split_and!; vm_compute; reflexivity. Qed.

End sparsity_coverage.

